(** * The playground's request-signing pipeline and its HTTPS proxy forwarder

    A shallow embedding of
    - the playground component of the OpenAPI plugin, under
      [packages/zudoku/src/lib/plugins/openapi]: the helper functions
      [serializeValue], [buildQueryString], [bufferToHex],
      [hmacSha256Hex], [toRecordFromActivePairs], [tryParseJsonObject],
      [upsertActiveParam], [getHeaderValue], and the body of
      [queryMutation.mutationFn] up to the dispatch of the proxy call;
    - the Express route [registerPlaygroundProxyRoute], with the two
      handlers it registers.

    Modelling conventions.
    - A JavaScript string is a [string] holding the UTF-8 bytes of a
      well-formed text (no lone surrogates); ASCII text is its own
      encoding, so [TextEncoder.encode] is the identity on bytes.
    - A JavaScript object used as a dictionary is a [record]: the list of
      its own properties in the order [Object.entries] enumerates them.
    - Arrays of the form state live in a [store] of cells when sharing
      matters, and are plain lists otherwise; the two views are related by
      [read_params].
    - What the platform supplies and the repository does not define
      ([JSON.parse], [new URL], [Headers], the identity hook, [createUrl],
      the upstream [fetch]) enters through the classes
      [Playground.Platform] and [Proxy.Platform]; the clock enters as the
      argument [now]. The theorems hold for every instance. *)

From Stdlib Require Import ZArith NArith String Ascii Bool Lia.
From stdpp Require Import base option list gmap strings.

Set Warnings "-register-all,-clear-no-such-hyp".

Open Scope string_scope.
Open Scope list_scope.

(** ** Strings of the platform *)

Module JsString.

Definition code (c : ascii) : Z := Z.of_N (N_of_ascii c).

Definition char (z : Z) : ascii := ascii_of_N (Z.to_N z).

Definition in_range (lo hi : Z) (c : ascii) : bool :=
  (lo <=? code c)%Z && (code c <=? hi)%Z.

Definition is_upper := in_range 65 90.
Definition is_lower := in_range 97 122.
Definition is_digit := in_range 48 57.

Fixpoint map_chars (f : ascii -> ascii) (s : string) : string :=
  match s with
  | EmptyString => EmptyString
  | String c r => String (f c) (map_chars f r)
  end.

(** [String.prototype.toLowerCase] and [toUpperCase]: the ASCII letters
    are mapped, every other byte is kept. The platform maps letters
    outside ASCII too; none of those maps onto a text the modelled code
    compares with ([host], [connection], [content-length], [GET],
    [HEAD]). *)
Definition toLowerCase : string -> string :=
  map_chars (fun c => if is_upper c then char (code c + 32) else c).

Definition toUpperCase : string -> string :=
  map_chars (fun c => if is_lower c then char (code c - 32) else c).

Definition chars (s : string) : list ascii := list_ascii_of_string s.
Definition of_chars (l : list ascii) : string := string_of_list_ascii l.

(** [String.prototype.startsWith] and [endsWith]. *)
Definition startsWith (p s : string) : bool :=
  bool_decide (chars p `prefix_of` chars s).

Definition endsWith (p s : string) : bool :=
  bool_decide (chars p `suffix_of` chars s).

(** The one-byte white space and line terminators of ECMAScript:
    TAB, LF, VT, FF, CR and SP. *)
Definition is_space1 (c : ascii) : bool :=
  in_range 9 13 c || (code c =? 32)%Z.

(** The white space of more than one byte, by UTF-8 encoding:
    U+00A0; U+1680; U+2000..U+200A, U+2028, U+2029, U+202F; U+205F;
    U+3000; U+FEFF. *)
Definition is_space2 (a b : ascii) : bool :=
  (code a =? 194)%Z && (code b =? 160)%Z.

Definition is_space3 (a b c : ascii) : bool :=
  let '(x, y, z) := (code a, code b, code c) in
  ((x =? 225) && (y =? 154) && (z =? 128))%Z
  || ((x =? 226) && (y =? 128)
      && ((128 <=? z) && (z <=? 138) || (z =? 168) || (z =? 169) || (z =? 175)))%Z
  || ((x =? 226) && (y =? 129) && (z =? 159))%Z
  || ((x =? 227) && (y =? 128) && (z =? 128))%Z
  || ((x =? 239) && (y =? 187) && (z =? 191))%Z.

(** Dropping leading white space. With [fwd = false] the list is a
    reversed text, where a multi-byte white space is met last byte
    first. *)
Fixpoint drop_space (fwd : bool) (l : list ascii) : list ascii :=
  match l with
  | [] => []
  | a :: r1 =>
      if is_space1 a then drop_space fwd r1
      else
        match r1 with
        | [] => l
        | b :: r2 =>
            if (if fwd then is_space2 a b else is_space2 b a)
            then drop_space fwd r2
            else
              match r2 with
              | [] => l
              | c :: r3 =>
                  if (if fwd then is_space3 a b c else is_space3 c b a)
                  then drop_space fwd r3
                  else l
              end
        end
  end.

Definition trimStart (s : string) : string :=
  of_chars (drop_space true (chars s)).

Definition trimEnd (s : string) : string :=
  of_chars (rev (drop_space false (rev (chars s)))).

(** [String.prototype.trim]. *)
Definition trim (s : string) : string := trimEnd (trimStart s).

(** [Array.prototype.join]. *)
Definition join (sep : string) (l : list string) : string :=
  String.concat sep l.

Definition hex_digit (upper : bool) (d : Z) : ascii :=
  if (d <? 10)%Z then char (48 + d)
  else char ((if upper then 55 else 87) + d).

(** The two hexadecimal digits of a byte. *)
Definition hex2 (upper : bool) (b : Z) : string :=
  String (hex_digit upper (Z.shiftr b 4))
    (String (hex_digit upper (Z.land b 15)) EmptyString).

(** The characters [encodeURIComponent] leaves alone:
    letters, digits and [- _ . ! ~ * ' ( )]. *)
Definition uri_unreserved (c : ascii) : bool :=
  is_upper c || is_lower c || is_digit c
  || existsb (Z.eqb (code c)) [45; 95; 46; 33; 126; 42; 39; 40; 41]%Z.

(** [encodeURIComponent]: every other byte of the UTF-8 text becomes
    [%XX] with upper-case digits. *)
Fixpoint encodeURIComponent (s : string) : string :=
  match s with
  | EmptyString => EmptyString
  | String c r =>
      (if uri_unreserved c then String c EmptyString
       else String "%" (hex2 true (code c)))
      +:+ encodeURIComponent r
  end.

(** Decimal rendering of a natural number, as [String(n)] gives for an
    integer below 2^53. *)
Fixpoint decimal_digits (fuel : nat) (n : Z) (acc : string) : string :=
  match fuel with
  | O => acc
  | S f =>
      let acc' := String (char (48 + n mod 10)) acc in
      if (n <? 10)%Z then acc' else decimal_digits f (n / 10) acc'
  end.

Definition decimal (n : N) : string :=
  decimal_digits (S (N.to_nat (N.log2 n))) (Z.of_N n) EmptyString.

(** [String.prototype.length]: the UTF-16 code units of the text, one
    for each character and two for a character of four bytes. *)
Definition utf16_length (s : string) : nat :=
  foldr (fun c n =>
           let b := code c in
           (if (Z.land b 192 =? 128)%Z then 0 else if (240 <=? b)%Z then 2 else 1)
           + n)%nat
        0%nat (chars s).

(** [TextEncoder.encode]: the bytes of the text. *)
Definition utf8 (s : string) : list Z := code <$> list_ascii_of_string s.

End JsString.

(** ** SHA-256 and HMAC, as [crypto.subtle] computes them (FIPS 180-4, RFC 2104) *)

Module Sha256.

Definition mask32 : Z := 4294967295.

Definition w32 (x : Z) : Z := Z.land x mask32.

Definition add32 (x y : Z) : Z := w32 (x + y).

Definition rotr (n x : Z) : Z :=
  Z.lor (Z.shiftr x n) (w32 (Z.shiftl x (32 - n))).

Definition xor3 (x y z : Z) : Z := Z.lxor (Z.lxor x y) z.

Definition Ch (x y z : Z) : Z :=
  Z.lxor (Z.land x y) (Z.land (Z.lxor x mask32) z).

Definition Maj (x y z : Z) : Z :=
  xor3 (Z.land x y) (Z.land x z) (Z.land y z).

Definition Sigma0 (x : Z) : Z := xor3 (rotr 2 x) (rotr 13 x) (rotr 22 x).
Definition Sigma1 (x : Z) : Z := xor3 (rotr 6 x) (rotr 11 x) (rotr 25 x).
Definition sigma0 (x : Z) : Z := xor3 (rotr 7 x) (rotr 18 x) (Z.shiftr x 3).
Definition sigma1 (x : Z) : Z := xor3 (rotr 17 x) (rotr 19 x) (Z.shiftr x 10).

(** The first 64 primes, by trial division. *)
Fixpoint primes_from (fuel : nat) (n : Z) (found : list Z) (want : nat) : list Z :=
  match fuel, want with
  | O, _ | _, O => rev found
  | S f, S k =>
      if forallb (fun p => negb (n mod p =? 0)%Z) found
      then primes_from f (n + 1) (n :: found) k
      else primes_from f (n + 1) found want
  end.

Definition primes64 : list Z := primes_from 400 2 [] 64.

(** Integer cube root by bisection on [lo, hi). *)
Fixpoint cbrt_between (fuel : nat) (n lo hi : Z) : Z :=
  match fuel with
  | O => lo
  | S f =>
      let mid := ((lo + hi) / 2)%Z in
      if (mid * mid * mid <=? n)%Z
      then cbrt_between f n mid hi
      else cbrt_between f n lo mid
  end.

(** Round constants: the first 32 bits of the fractional parts of the
    cube roots of the primes. *)
Definition K : list Z :=
  Eval vm_compute in
    (fun p => w32 (cbrt_between 40 (p * 2 ^ 96) 0 (2 ^ 36))%Z) <$> primes64.

(** Initial hash value: the same of the square roots of the first eight. *)
Definition H0 : list Z :=
  Eval vm_compute in
    (fun p => w32 (Z.sqrt (p * 2 ^ 64))%Z) <$> take 8 primes64.

Definition be32 (b0 b1 b2 b3 : Z) : Z :=
  Z.lor (Z.shiftl b0 24) (Z.lor (Z.shiftl b1 16) (Z.lor (Z.shiftl b2 8) b3)).

Fixpoint words_of (bytes : list Z) : list Z :=
  match bytes with
  | b0 :: b1 :: b2 :: b3 :: r => be32 b0 b1 b2 b3 :: words_of r
  | _ => []
  end.

Definition bytes_of_word (x : Z) : list Z :=
  [Z.land (Z.shiftr x 24) 255; Z.land (Z.shiftr x 16) 255;
   Z.land (Z.shiftr x 8) 255; Z.land x 255].

(** Padding: a one bit, zeros, and the bit length on eight bytes. *)
Definition pad (msg : list Z) : list Z :=
  let len := Z.of_nat (length msg) in
  let zeros := Z.to_nat ((55 - len) mod 64) in
  msg ++ 128%Z :: replicate zeros 0%Z
      ++ bytes_of_word (Z.shiftr (8 * len) 32) ++ bytes_of_word (w32 (8 * len)).

(** Message schedule, newest word first while it grows. *)
Fixpoint extend (n : nat) (ws : list Z) : list Z :=
  match n with
  | O => ws
  | S k =>
      let at_ i := nth i ws 0%Z in
      extend k
        (add32 (add32 (sigma1 (at_ 1%nat)) (at_ 6%nat))
               (add32 (sigma0 (at_ 14%nat)) (at_ 15%nat)) :: ws)
  end.

Definition schedule (block : list Z) : list Z := rev (extend 48 (rev block)).

Definition round (st : list Z) (kw : Z * Z) : list Z :=
  match st with
  | [a; b; c; d; e; f; g; h] =>
      let t1 := add32 (add32 (add32 h (Sigma1 e)) (Ch e f g)) (add32 kw.1 kw.2) in
      let t2 := add32 (Sigma0 a) (Maj a b c) in
      [add32 t1 t2; a; b; c; add32 d t1; e; f; g]
  | _ => st
  end.

Definition compress (st block : list Z) : list Z :=
  zip_with add32 st (foldl round st (zip K (schedule block))).

Fixpoint blocks (fuel : nat) (ws : list Z) (st : list Z) : list Z :=
  match fuel, ws with
  | S f, _ :: _ => blocks f (drop 16 ws) (compress st (take 16 ws))
  | _, _ => st
  end.

Definition sha256 (msg : list Z) : list Z :=
  let ws := words_of (pad msg) in
  blocks (length ws) ws H0 ≫= bytes_of_word.

Definition block_key (key : list Z) : list Z :=
  let k := if (64 <? length key)%nat then sha256 key else key in
  k ++ replicate (64 - length k) 0%Z.

(** [crypto.subtle.sign("HMAC", key, message)] with hash SHA-256. *)
Definition hmac (key msg : list Z) : list Z :=
  let k := block_key key in
  sha256 ((Z.lxor 92 <$> k) ++ sha256 ((Z.lxor 54 <$> k) ++ msg)).

End Sha256.

Import JsString.

(** ** Values and objects of the platform *)

(** A JavaScript value as [JSON.parse] produces it, with [undefined]. A
    number is kept as the text [String] renders it to. *)
Inductive jsval :=
| VUndefined
| VNull
| VBool (b : bool)
| VNum (repr : string)
| VStr (s : string)
| VArr (items : list jsval)
| VObj (props : list (string * jsval)).

(** An object used as a dictionary: its own properties, in the order
    [Object.entries] enumerates them. *)
Abbreviation record V := (list (string * V)).

Module Obj.

Fixpoint digits_value (l : list ascii) (acc : N) : option N :=
  match l with
  | [] => Some acc
  | c :: r =>
      if is_digit c
      then digits_value r (10 * acc + Z.to_N (code c - 48))%N
      else None
  end.

(** An array index is the canonical decimal text of an integer below
    2^32 - 1; such keys are enumerated first, in numeric order. *)
Definition array_index (k : string) : option N :=
  n ← digits_value (chars k) 0%N;
  if bool_decide (decimal n = k) && (n <? 4294967295)%N then Some n else None.

Section Properties.
Context {V : Type}.

Definition has (k : string) (o : record V) : bool :=
  bool_decide (k ∈ o.*1).

Fixpoint replace (k : string) (v : V) (o : record V) : record V :=
  match o with
  | [] => []
  | (k', v') :: r =>
      if bool_decide (k' = k) then (k, v) :: r else (k', v') :: replace k v r
  end.

(** The place of a new array index [n]: before the first greater
    index and before every other key. *)
Fixpoint insert_index (n : N) (k : string) (v : V) (o : record V) : record V :=
  match o with
  | [] => [(k, v)]
  | (k', v') :: r =>
      match array_index k' with
      | Some n' =>
          if (n <? n')%N then (k, v) :: o else (k', v') :: insert_index n k v r
      | None => (k, v) :: o
      end
  end.

(** [CreateDataProperty]: an existing key keeps its place, a new
    array index is sorted in, another new key goes last. *)
Definition define (k : string) (v : V) (o : record V) : record V :=
  if has k o then replace k v o
  else
    match array_index k with
    | Some n => insert_index n k v o
    | None => o ++ [(k, v)]
    end.

(** [o[k] = v] for a primitive [v] on an object whose prototype is
    [Object.prototype]: the inherited setter of [__proto__] ignores a
    primitive, every other key is defined. *)
Definition assign (k : string) (v : V) (o : record V) : record V :=
  if bool_decide (k = "__proto__") then o else define k v o.

(** [Object.entries]. *)
Definition entries (o : record V) : list (string * V) := o.

End Properties.

End Obj.

(** ** JSON text of a value *)

Module Json.

(** The white space of the JSON grammar: SP, TAB, LF and CR. *)
Definition whitespace (c : ascii) : bool :=
  bool_decide (code c ∈ [32; 9; 10; 13]%Z).

Definition dquote : string := String (char 34) EmptyString.
Definition backslash : string := String (char 92) EmptyString.

Definition escape_char (c : ascii) : string :=
  let n := code c in
  if (n =? 34)%Z then backslash +:+ dquote
  else if (n =? 92)%Z then backslash +:+ backslash
  else if (n =? 8)%Z then backslash +:+ "b"
  else if (n =? 12)%Z then backslash +:+ "f"
  else if (n =? 10)%Z then backslash +:+ "n"
  else if (n =? 13)%Z then backslash +:+ "r"
  else if (n =? 9)%Z then backslash +:+ "t"
  else if (n <? 32)%Z then backslash +:+ "u00" +:+ hex2 false n
  else String c EmptyString.

Fixpoint escape (s : string) : string :=
  match s with
  | EmptyString => EmptyString
  | String c r => escape_char c +:+ escape r
  end.

(** [QuoteJSONString]. *)
Definition quote (s : string) : string := dquote +:+ escape s +:+ dquote.

Definition finite (repr : string) : bool :=
  negb (bool_decide (repr ∈ ["Infinity"; "-Infinity"; "NaN"])).

(** [SerializeJSONProperty] without indentation: [None] where the
    platform yields [undefined]. *)
Fixpoint serialize (v : jsval) : option string :=
  match v with
  | VUndefined => None
  | VNull => Some "null"
  | VBool b => Some (if b then "true" else "false")
  | VNum r => Some (if finite r then r else "null")
  | VStr s => Some (quote s)
  | VArr items =>
      Some ("[" +:+ join "," ((fun x => default "null" (serialize x)) <$> items)
                +:+ "]")
  | VObj props =>
      Some ("{" +:+ join ","
                    (omap (fun kv => (fun t => quote kv.1 +:+ ":" +:+ t)
                                       <$> serialize kv.2) props)
                +:+ "}")
  end.

(** [JSON.stringify] of an array or an object: always a text. *)
Definition stringify (v : jsval) : string := default EmptyString (serialize v).

End Json.

(** ** Errors thrown by the modelled code *)

Record Error := { type_error : bool; message : string }.

(** [new Error(msg)]. *)
Definition new_Error (msg : string) : Error :=
  {| type_error := false; message := msg |}.

Inductive result (A : Type) :=
| Ok (a : A)
| Throw (e : Error).
Arguments Ok {A} a.
Arguments Throw {A} e.

#[global] Instance result_ret : MRet result := fun _ a => Ok a.
#[global] Instance result_bind : MBind result := fun _ _ f m =>
  match m with Ok a => f a | Throw e => Throw e end.

(** ** The playground: request signing and submission

    Source: [packages/zudoku/src/lib/plugins/openapi/OperationListItem.tsx];
    the line numbers below are those of that file. *)

Module Playground.

Definition NO_IDENTITY : string := "__none".

(** An entry of [queryParams] or [headers]. *)
Record Param := {
  name : string;
  value : string;
  active : bool;
  enum : option (list string)
}.

Inductive BodyMode := ModeText | ModeFile | ModeMultipart.

#[global] Instance BodyMode_eq_dec : EqDecision BodyMode.
Proof. solve_decision. Defined.

Record File := { file_name : string }.

Inductive FieldValue := FieldFile (f : File) | FieldText (s : string).

Record MultipartField := {
  field_name : string;
  field_value : FieldValue;
  field_active : bool
}.

(** [PlaygroundForm]; [arr] is how an array of parameters is held: a
    list of entries, or a location of the store. *)
Record PlaygroundForm {arr : Type} := {
  apiSecret : option string;
  body : string;
  bodyMode : option BodyMode;
  file : option File;
  multipartFormFields : list MultipartField;
  queryParams : arr;
  pathParams : list (string * string);
  headers : arr;
  identity : option string
}.
Arguments PlaygroundForm : clear implicits.

(** The properties of the component the submission reads. *)
Record Props := {
  server : option string;
  url : string;
  method : string;
  isSigned : bool;
  apiKeyHeaderName : string
}.

Inductive Body :=
| BodyText (s : string)
| BodyFile (f : File)
| BodyForm (fields : list (string * FieldValue)).

(** The JSON body posted to the proxy. *)
Record ProxyEnvelope := {
  env_method : string;
  env_url : string;
  env_headers : list (string * string);
  env_body : option string
}.

(** How far a submission gets: it throws before the proxy is called, or
    it posts an envelope to the proxy. *)
Inductive Outcome :=
| Threw (e : Error)
| Posted (env : ProxyEnvelope).

(** The proxy calls a submission makes. *)
Definition network_calls (o : Outcome) : list ProxyEnvelope :=
  match o with Threw _ => [] | Posted env => [env] end.

(** What the submission uses and this file of the repository does not
    define. *)
Class Platform := {
  (** [JSON.parse]; [None] when it throws. *)
  JSON_parse : string -> option jsval;
  (** [createUrl(server ?? selectedServer, url, data).toString()]. *)
  createUrl : Props -> PlaygroundForm (list Param) -> result string;
  (** [Array.from(new Headers(pairs).entries())]. *)
  Headers_entries : list (string * string) -> result (list (string * string));
  (** [new Request(url, init)], the [authorizeRequest] hook of the chosen
      identity, and the entries of the headers it leaves. *)
  authorizeRequest :
    option string -> string -> string -> list (string * string) ->
    option Body -> result (list (string * string))
}.

(** *** Helper functions *)

(** Lines 385-390. [String(value)] of a boolean, a number or a text. *)
Definition serializeValue (v : jsval) : string :=
  match v with
  | VNull | VUndefined => EmptyString
  | VArr _ | VObj _ => Json.stringify v
  | VBool b => if b then "true" else "false"
  | VNum r => r
  | VStr s => s
  end.

(** Lines 392-402. The guard on a missing [params] never fires on a
    record. *)
Definition buildQueryString (params : record jsval) : string :=
  let pairs :=
    omap (fun kv : string * jsval =>
            match kv.2 with
            | VNull | VUndefined => None
            | v => Some (kv.1 +:+ "=" +:+ encodeURIComponent (serializeValue v))
            end)
         (Obj.entries params) in
  join "&" pairs.

(** Lines 404-411. *)
Definition bufferToHex (bytes : list Z) : string :=
  foldl (fun hex b => hex +:+ hex2 false b) EmptyString bytes.

(** Lines 413-424. *)
Definition hmacSha256Hex (secret message : string) : string :=
  bufferToHex (Sha256.hmac (utf8 secret) (utf8 message)).

(** Lines 426-436. *)
Definition toRecordFromActivePairs (pairs : list Param) : record jsval :=
  foldl (fun out p =>
           if bool_decide (name p = EmptyString) then out
           else if negb (active p) then out
           else Obj.assign (name p) (VStr (value p)) out)
        [] pairs.

(** Lines 438-450. A parsed value passes the last test when it is an
    object: not null, not an array, not a primitive. *)
Definition tryParseJsonObject `{Platform} (text : string) : option (record jsval) :=
  let t := trim text in
  if bool_decide (t = EmptyString) then None
  else if negb (startsWith "{" t && endsWith "}" t) then None
  else
    match JSON_parse t with
    | Some (VObj parsed) => Some parsed
    | _ => None
    end.

(** [Array.prototype.findIndex] and [find]. *)
Definition findIndex {A} (P : A -> Prop) `{!∀ x, Decision (P x)}
    (l : list A) : option nat :=
  fst <$> list_find P l.

Definition find_ {A} (P : A -> Prop) `{!∀ x, Decision (P x)}
    (l : list A) : option A :=
  snd <$> list_find P l.

(** Lines 452-474, as a function from the array before to the array
    after. *)
Definition upsertActiveParam (params : list Param) (name' value' : string)
    : list Param :=
  match findIndex (fun p => name p = name') params with
  | Some idx =>
      match params !! idx with
      | Some p =>
          <[idx := {| name := name p; value := value';
                      active := true; enum := enum p |}]> params
      | None => params
      end
  | None =>
      params ++ [{| name := name'; value := value';
                    active := true; enum := Some [] |}]
  end.

(** Lines 476-483. *)
Definition getHeaderValue (headers : list Param) (headerName : string) : string :=
  match find_ (fun x => name x = headerName) headers with
  | Some h => if active h then trim (value h) else EmptyString
  | None => EmptyString
  end.

(** *** The submission, on lists of entries *)

Definition with_queryParams {arr} (d : PlaygroundForm arr) (q : arr)
    : PlaygroundForm arr :=
  {| apiSecret := apiSecret d; body := body d; bodyMode := bodyMode d;
     file := file d; multipartFormFields := multipartFormFields d;
     queryParams := q; pathParams := pathParams d; headers := headers d;
     identity := identity d |}.

Definition outcome_of (r : result ProxyEnvelope) : Outcome :=
  match r with Ok env => Posted env | Throw e => Threw e end.

(** The [catch] of the submission: a [TypeError] is replaced. *)
Definition catch_remap {A} (r : result A) : result A :=
  match r with
  | Throw e =>
      if type_error e
      then Throw (new_Error
             "The request failed, possibly due to network issues or proxy issues.")
      else Throw e
  | _ => r
  end.

Definition is_GET_or_HEAD (method : string) : bool :=
  bool_decide (toUpperCase method ∈ ["GET"; "HEAD"]).

Section Submission.
Context `{Platform} (props : Props).

(** Lines 703-717. The text that is signed: the query component and the
    body component, the empty ones left out. *)
Definition toSign (params : list Param) (mode : option BodyMode)
    (body' : string) : string :=
  let qp :=
    toRecordFromActivePairs
      (filter (fun p => name p ≠ "signature") params) in
  let bodyParams :=
    if bool_decide (mode = Some ModeText)
    then tryParseJsonObject body' else None in
  let queryParamsString := buildQueryString qp in
  let bodyParamsString :=
    match bodyParams with
    | Some o => buildQueryString o
    | None => EmptyString
    end in
  join "&"
    (filter (fun s => s ≠ EmptyString) [queryParamsString; bodyParamsString]).

Definition missing_header_message : string :=
  "Missing " +:+ apiKeyHeaderName props
    +:+ " header. Enable it in Headers and provide your API key.".

(** Lines 685-721. The block run when the operation is signed; [now] is
    what [Date.now()] returns. *)
Definition sign (now : N) (signedData : PlaygroundForm (list Param))
    : result (PlaygroundForm (list Param)) :=
  let apiSecret' := trim (default EmptyString (apiSecret signedData)) in
  if bool_decide (apiSecret' = EmptyString)
  then Throw (new_Error "API Secret is required for signed endpoints.")
  else
    let apiKey := getHeaderValue (headers signedData) (apiKeyHeaderName props) in
    if bool_decide (apiKey = EmptyString)
    then Throw (new_Error missing_header_message)
    else
      let params := upsertActiveParam (queryParams signedData)
                      "timestamp" (decimal now) in
      let signature :=
        hmacSha256Hex apiSecret'
          (toSign params (bodyMode signedData) (body signedData)) in
      Ok (with_queryParams signedData
            (upsertActiveParam params "signature" signature)).

(** Lines 723-814. From [createUrl] to the envelope posted to the proxy;
    the timer of the long-running warning and the abort handle are left
    out. *)
Definition send (signedData : PlaygroundForm (list Param))
    : result ProxyEnvelope :=
  finalUrl ← createUrl props signedData;
  hdrs ← Headers_entries
           ((fun h => (name h, value h)) <$>
              filter (fun h => name h ≠ EmptyString ∧ active h = true)
                     (headers signedData));
  let without_content_type :=
    filter (fun kv : string * string => toLowerCase kv.1 ≠ "content-type") hdrs in
  let '(body', requestHeadersForSend) :=
    match bodyMode signedData with
    | Some ModeFile => (BodyFile <$> file signedData, without_content_type)
    | Some ModeMultipart =>
        (Some (BodyForm
                 ((fun f => (field_name f, field_value f)) <$>
                    filter (fun f => field_name f ≠ EmptyString
                                     ∧ field_active f = true)
                           (multipartFormFields signedData))),
         without_content_type)
    | _ =>
        (if bool_decide (body signedData = EmptyString) then None
         else Some (BodyText (body signedData)),
         hdrs)
    end in
  let requestBodyForSend :=
    if is_GET_or_HEAD (method props) then None else body' in
  requestHeadersForSend ←
    catch_remap
      (if bool_decide (identity signedData ≠ Some NO_IDENTITY)
       then authorizeRequest (identity signedData) finalUrl (method props)
              requestHeadersForSend requestBodyForSend
       else Ok requestHeadersForSend);
  Ok {| env_method := toUpperCase (method props);
        env_url := finalUrl;
        env_headers := requestHeadersForSend;
        env_body := match requestBodyForSend with
                    | Some (BodyText s) => Some s
                    | _ => None
                    end |}.

(** Lines 676-814. [queryMutation.mutationFn] up to the call of the
    proxy. The two arrays of [signedData] are copies; as lists they are
    the lists of [data]. *)
Definition mutationFn (now : N) (data : PlaygroundForm (list Param))
    : Outcome :=
  let signedData := data in
  outcome_of
    ((if isSigned props then sign now signedData else Ok signedData) ≫= send).

End Submission.

(** *** The submission, on a store of shared arrays and objects *)

Abbreviation loc := positive.

Inductive cell :=
| ObjCell (p : Param)
| ArrCell (elems : list loc).

Abbreviation store := (gmap loc cell).

(** A new object or array literal. *)
Definition alloc (c : cell) (σ : store) : loc * store :=
  let l := fresh (dom σ) in (l, <[l := c]> σ).

Definition elems_at (σ : store) (a : loc) : list loc :=
  match σ !! a with Some (ArrCell els) => els | _ => [] end.

Definition param_at (σ : store) (l : loc) : option Param :=
  match σ !! l with Some (ObjCell p) => Some p | _ => None end.

Definition read_params (σ : store) (a : loc) : list Param :=
  omap (param_at σ) (elems_at σ a).

Definition read_form (σ : store) (d : PlaygroundForm loc)
    : PlaygroundForm (list Param) :=
  {| apiSecret := apiSecret d; body := body d; bodyMode := bodyMode d;
     file := file d; multipartFormFields := multipartFormFields d;
     queryParams := read_params σ (queryParams d);
     pathParams := pathParams d;
     headers := read_params σ (headers d);
     identity := identity d |}.

(** Lines 452-474 on the array at [params]: the spread builds a new
    object that the slot of the first match receives, or a new object is
    pushed. *)
Definition upsertActiveParam_store (params : loc) (name' value' : string)
    (σ : store) : store :=
  let els := elems_at σ params in
  match findIndex (fun l => name <$> param_at σ l = Some name') els with
  | Some idx =>
      match els !! idx ≫= param_at σ with
      | Some p =>
          let '(l, σ') :=
            alloc (ObjCell {| name := name p; value := value';
                              active := true; enum := enum p |}) σ in
          <[params := ArrCell (<[idx := l]> els)]> σ'
      | None => σ
      end
  | None =>
      let '(l, σ') :=
        alloc (ObjCell {| name := name'; value := value';
                          active := true; enum := Some [] |}) σ in
      <[params := ArrCell (els ++ [l])]> σ'
  end.

Section StoreSubmission.
Context `{Platform} (props : Props).

Definition sign_store (now : N) (signedData : PlaygroundForm loc)
    (σ : store) : result unit * store :=
  let apiSecret' := trim (default EmptyString (apiSecret signedData)) in
  if bool_decide (apiSecret' = EmptyString)
  then (Throw (new_Error "API Secret is required for signed endpoints."), σ)
  else
    let apiKey :=
      getHeaderValue (read_params σ (headers signedData))
        (apiKeyHeaderName props) in
    if bool_decide (apiKey = EmptyString)
    then (Throw (new_Error (missing_header_message props)), σ)
    else
      let σ1 := upsertActiveParam_store (queryParams signedData)
                  "timestamp" (decimal now) σ in
      let signature :=
        hmacSha256Hex apiSecret'
          (toSign (read_params σ1 (queryParams signedData))
                  (bodyMode signedData) (body signedData)) in
      (Ok (), upsertActiveParam_store (queryParams signedData)
                "signature" signature σ1).

(** Lines 676-814. [data] holds the locations of the arrays of the form
    state; the submission starts by copying both arrays (lines 679-683),
    and nothing after the signing block writes to the store. *)
Definition mutationFn_store (now : N) (data : PlaygroundForm loc)
    (σ : store) : Outcome * store :=
  let '(qa, σ1) := alloc (ArrCell (elems_at σ (queryParams data))) σ in
  let '(ha, σ2) := alloc (ArrCell (elems_at σ1 (headers data))) σ1 in
  let signedData :=
    {| apiSecret := apiSecret data; body := body data;
       bodyMode := bodyMode data; file := file data;
       multipartFormFields := multipartFormFields data;
       queryParams := qa; pathParams := pathParams data;
       headers := ha; identity := identity data |} in
  let '(r, σ3) :=
    if isSigned props then sign_store now signedData σ2 else (Ok (), σ2) in
  (outcome_of (r ≫= fun _ => send props (read_form σ3 signedData)), σ3).

End StoreSubmission.

End Playground.

(** ** The proxy forwarder

    Source: the module that exports [registerPlaygroundProxyRoute]. *)

Module Proxy.

(** The parsed JSON body of a request to the proxy. *)
Record ProxyBody := {
  method : option string;
  url : option string;
  headers : option (list (string * string));
  body : option string
}.

(** What the handler reads of [new URL(url)]. *)
Record URL := { protocol : string }.

(** An upstream [fetch(url, init)]. *)
Record FetchCall := {
  fetch_url : string;
  fetch_method : string;
  fetch_headers : record string;
  fetch_body : option string
}.

Record Upstream := {
  up_status : Z;
  up_headers : list (string * string);
  up_text : string
}.

Class Platform := {
  (** [new URL(url)]; [None] when it throws. *)
  URL_parse : string -> option URL;
  (** The upstream call with the reading of its text. *)
  fetch : FetchCall -> result Upstream
}.

(** The JSON document of a forwarded response. *)
Record Forwarded := {
  fw_status : Z;
  fw_headers : list (string * string);
  fw_body : string;
  fw_size : nat;
  fw_contentType : string
}.

Inductive Sent :=
| SentNothing
| SentText (s : string)
| SentJson (payload : Forwarded).

Record Response := {
  res_headers : list (string * string);
  res_status : Z;
  res_type : option string;
  res_sent : Sent
}.

Definition truthy (s : option string) : bool :=
  match s with
  | Some s => negb (bool_decide (s = EmptyString))
  | None => false
  end.

(** Lines 27-33: the headers [setCors] sets. *)
Definition setCors (origin : option string) : list (string * string) :=
  (if truthy origin
   then [("Access-Control-Allow-Origin", default EmptyString origin)] else [])
  ++ [("Vary", "Origin");
      ("Access-Control-Allow-Headers", "content-type");
      ("Access-Control-Allow-Methods", "POST, OPTIONS")].

(** Lines 38-41: [app.options(route, ...)]. *)
Definition options (origin : option string) : Response :=
  {| res_headers := setCors origin; res_status := 204;
     res_type := None; res_sent := SentNothing |}.

(** Lines 71-77: the loop that builds [headersObj]. *)
Definition forwarded_headers (hs : list (string * string)) : record string :=
  foldl (fun headersObj kv =>
           let '(k, v) := kv in
           if bool_decide (k = EmptyString) then headersObj
           else
             let lower := toLowerCase k in
             if bool_decide (lower ∈ ["host"; "connection"; "content-length"])
             then headersObj
             else Obj.assign k v headersObj)
        [] hs.

(** [Headers.prototype.get] on the entries of a response. *)
Definition header_get (name : string) (hs : list (string * string)) : option string :=
  snd <$> find (fun kv => bool_decide (toLowerCase kv.1 = toLowerCase name)) hs.

Section Handler.
Context `{Platform}.

Definition bad_request (origin : option string) (msg : string) : Response :=
  {| res_headers := setCors origin; res_status := 400;
     res_type := None; res_sent := SentText msg |}.

(** Lines 43-106: [app.post(route, ...)]; the response, and the upstream
    calls made. [readJson] is the outcome of reading and parsing the
    request body, read at its declared type [ProxyBody]: a field holds a
    text or is absent. *)
Definition post (origin : option string) (readJson : result ProxyBody)
    : Response * list FetchCall :=
  match readJson with
  | Throw err =>
      ({| res_headers := setCors origin; res_status := 500;
          res_type := Some "text/plain"; res_sent := SentText (message err) |}, [])
  | Ok payload =>
      if negb (truthy (url payload)) || negb (truthy (method payload))
      then (bad_request origin
              "Invalid payload. Expected { method, url, headers?, body? }", [])
      else
        let method' := toUpperCase (default EmptyString (method payload)) in
        let url' := default EmptyString (url payload) in
        match URL_parse url' with
        | None => (bad_request origin "Invalid URL", [])
        | Some u =>
            if bool_decide (protocol u ≠ "https:")
            then (bad_request origin "Only https URLs are allowed", [])
            else
              let headersObj := forwarded_headers (default [] (headers payload)) in
              let call :=
                {| fetch_url := url'; fetch_method := method';
                   fetch_headers := headersObj;
                   fetch_body :=
                     if bool_decide (method' ∈ ["GET"; "HEAD"]) then None
                     else body payload |} in
              match fetch call with
              | Throw err =>
                  ({| res_headers := setCors origin; res_status := 500;
                      res_type := Some "text/plain";
                      res_sent := SentText (message err) |}, [call])
              | Ok upstream =>
                  ({| res_headers := setCors origin; res_status := 200;
                      res_type := Some "application/json";
                      res_sent :=
                        SentJson
                          {| fw_status := up_status upstream;
                             fw_headers := up_headers upstream;
                             fw_body := up_text upstream;
                             fw_size := utf16_length (up_text upstream);
                             fw_contentType :=
                               default EmptyString
                                 (header_get "content-type" (up_headers upstream)) |}
                    |}, [call])
              end
        end
  end.

End Handler.

End Proxy.

(** ** Reference instances of the platform

    Executable stand-ins for what the platform supplies, used to run the
    model on concrete requests. The theorems below hold for every
    instance. *)

Module Reference.

Fixpoint skip_ws (l : list ascii) : list ascii :=
  match l with
  | c :: r => if Json.whitespace c then skip_ws r else l
  | [] => []
  end.

(** The character an escape stands for; the escapes with four
    hexadecimal digits are outside the subset. *)
Definition unescape (c : ascii) : option ascii :=
  let n := code c in
  if bool_decide (n ∈ [34; 92; 47]%Z) then Some c
  else if (n =? 98)%Z then Some (char 8)
  else if (n =? 102)%Z then Some (char 12)
  else if (n =? 110)%Z then Some (char 10)
  else if (n =? 114)%Z then Some (char 13)
  else if (n =? 116)%Z then Some (char 9)
  else None.

(** A string, from behind its opening quote to its closing quote. *)
Fixpoint parse_string (l acc : list ascii) : option (string * list ascii) :=
  match l with
  | [] => None
  | c :: r =>
      if (code c =? 34)%Z then Some (of_chars (rev acc), r)
      else if (code c =? 92)%Z then
        match r with
        | e :: r' =>
            match unescape e with
            | Some x => parse_string r' (x :: acc)
            | None => None
            end
        | [] => None
        end
      else if (code c <? 32)%Z then None
      else parse_string r (c :: acc)
  end.

Fixpoint take_digits (l : list ascii) : list ascii * list ascii :=
  match l with
  | c :: r =>
      if is_digit c
      then let '(ds, rest) := take_digits r in (c :: ds, rest)
      else ([], l)
  | [] => ([], [])
  end.

(** An integer of at most fifteen digits, rendered as [String] renders the
    number; fractions and exponents are outside the subset. *)
Definition parse_number (l : list ascii) : option (string * list ascii) :=
  let '(neg, l1) :=
    match l with
    | c :: r => if (code c =? 45)%Z then (true, r) else (false, l)
    | [] => (false, l)
    end in
  let '(ds, rest) := take_digits l1 in
  let continues :=
    match rest with
    | c :: _ => bool_decide (code c ∈ [46; 101; 69]%Z)
    | [] => false
    end in
  match ds with
  | [] => None
  | d :: ds' =>
      if continues || (15 <? length ds)%nat
         || ((code d =? 48)%Z && negb (bool_decide (ds' = [])))
      then None
      else if bool_decide (ds = chars "0") then Some ("0", rest)
      else Some (of_chars ((if neg then chars "-" else []) ++ ds), rest)
  end.

Definition literal (word : string) (v : jsval) (l : list ascii)
    : option (jsval * list ascii) :=
  let w := chars word in
  if bool_decide (take (length w) l = w) then Some (v, drop (length w) l) else None.

Fixpoint parse_value (fuel : nat) (l : list ascii) : option (jsval * list ascii) :=
  match fuel with
  | O => None
  | S f =>
      match skip_ws l with
      | [] => None
      | c :: r =>
          let n := code c in
          if (n =? 123)%Z then
            match skip_ws r with
            | c' :: r' =>
                if (code c' =? 125)%Z then Some (VObj [], r')
                else '(o, rest) ← parse_members f r []; Some (VObj o, rest)
            | [] => None
            end
          else if (n =? 91)%Z then
            match skip_ws r with
            | c' :: r' =>
                if (code c' =? 93)%Z then Some (VArr [], r')
                else '(items, rest) ← parse_elements f r []; Some (VArr items, rest)
            | [] => None
            end
          else if (n =? 34)%Z then
            '(s, rest) ← parse_string r []; Some (VStr s, rest)
          else if (n =? 116)%Z then literal "true" (VBool true) (c :: r)
          else if (n =? 102)%Z then literal "false" (VBool false) (c :: r)
          else if (n =? 110)%Z then literal "null" VNull (c :: r)
          else '(repr, rest) ← parse_number (c :: r); Some (VNum repr, rest)
      end
  end
with parse_members (fuel : nat) (l : list ascii) (acc : record jsval)
    : option (record jsval * list ascii) :=
  match fuel with
  | O => None
  | S f =>
      match skip_ws l with
      | q :: r =>
          if (code q =? 34)%Z then
            '(k, r1) ← parse_string r [];
            match skip_ws r1 with
            | colon :: r2 =>
                if (code colon =? 58)%Z then
                  '(v, r3) ← parse_value f r2;
                  let acc' := Obj.define k v acc in
                  match skip_ws r3 with
                  | c :: r4 =>
                      if (code c =? 44)%Z then parse_members f r4 acc'
                      else if (code c =? 125)%Z then Some (acc', r4)
                      else None
                  | [] => None
                  end
                else None
            | [] => None
            end
          else None
      | [] => None
      end
  end
with parse_elements (fuel : nat) (l : list ascii) (acc : list jsval)
    : option (list jsval * list ascii) :=
  match fuel with
  | O => None
  | S f =>
      '(v, r1) ← parse_value f l;
      match skip_ws r1 with
      | c :: r2 =>
          if (code c =? 44)%Z then parse_elements f r2 (v :: acc)
          else if (code c =? 93)%Z then Some (rev (v :: acc), r2)
          else None
      | [] => None
      end
  end.

(** [JSON.parse] on the subset: objects, arrays, strings without
    hexadecimal escapes, integers, [true], [false] and [null]. *)
Definition JSON_parse (s : string) : option jsval :=
  let l := chars s in
  '(v, rest) ← parse_value (2 * length l + 2) l;
  if bool_decide (skip_ws rest = []) then Some v else None.

(** The scheme of an absolute URL, as the URL parser reads it: a letter,
    then letters, digits, [+], [-] or [.], up to a colon; lower-cased. *)
Fixpoint scheme_chars (l acc : list ascii) : option (list ascii) :=
  match l with
  | [] => None
  | c :: r =>
      if (code c =? 58)%Z then Some (rev acc)
      else if is_upper c || is_lower c || is_digit c
              || bool_decide (code c ∈ [43; 45; 46]%Z)
      then scheme_chars r (c :: acc)
      else None
  end.

(** [new URL(url)] read for its protocol only: every text with a scheme
    is taken to parse. *)
Definition URL_parse (s : string) : option Proxy.URL :=
  match chars (trim s) with
  | c :: r =>
      if is_upper c || is_lower c
      then sch ← scheme_chars r [c];
           Some {| Proxy.protocol := toLowerCase (of_chars sch) +:+ ":" |}
      else None
  | [] => None
  end.

(** Modelled from the spec: [createUrl.js] is not among the sources. The
    spec has every active entry with a value contribute a pair to the
    query string, in sequence order; path substitution is left out. *)
Definition createUrl (props : Playground.Props)
    (data : Playground.PlaygroundForm (list Playground.Param)) : result string :=
  let pairs :=
    (fun p => Playground.name p +:+ "=" +:+ encodeURIComponent (Playground.value p))
      <$> filter (fun p => Playground.active p = true) (Playground.queryParams data) in
  Ok (default EmptyString (Playground.server props) +:+ Playground.url props
        +:+ (if bool_decide (pairs = []) then EmptyString else "?" +:+ join "&" pairs)).

#[export] Instance browser : Playground.Platform := {|
  Playground.JSON_parse := JSON_parse;
  Playground.createUrl := createUrl;
  Playground.Headers_entries hs := Ok (prod_map toLowerCase id <$> hs);
  Playground.authorizeRequest _ _ _ hs _ := Ok hs
|}.

(** An upstream that answers every call with a JSON document. *)
#[export] Instance server : Proxy.Platform := {|
  Proxy.URL_parse := URL_parse;
  Proxy.fetch _ :=
    Ok {| Proxy.up_status := 200;
          Proxy.up_headers := [("content-type", "application/json")];
          Proxy.up_text := "{}" |}
|}.

End Reference.


(** ** Vocabulary of the statements, and sample data *)

Module Terms.
Import Playground.

(** *** Entries and lists of entries *)

(** What [upsertActiveParam] puts in the place of [p], and what it
    appends. *)
Definition refreshed (p : Param) (v : string) : Param :=
  {| name := name p; value := v; active := true; enum := enum p |}.

Definition appended (n v : string) : Param :=
  {| name := n; value := v; active := true; enum := Some [] |}.

(** How many entries carry the name [n], and the first that does. *)
Definition count_name (n : string) (ps : list Param) : nat :=
  length (filter (fun p => name p = n) ps).

Definition named (n : string) (ps : list Param) : option Param :=
  find_ (fun p => name p = n) ps.

(** The entries [toRecordFromActivePairs] reads: active, with a name. *)
Definition kept (pairs : list Param) : list Param :=
  filter (fun p => name p ≠ EmptyString ∧ active p = true) pairs.

(** The entries that are signed: those [toRecordFromActivePairs] reads of
    the live list without its [signature] entries. *)
Definition signed_entries (live : list Param) : list Param :=
  kept (filter (fun p => name p ≠ "signature") live).

(** *** Records *)

(** The last entry of [l] with key [k] has value [v]. *)
Definition last_named {V} (l : list (string * V)) (k : string) (v : V) : Prop :=
  ∃ pre post, l = pre ++ (k, v) :: post ∧ k ∉ post.*1.

(** The object that assigning the pairs of [l] in turn builds. *)
Definition assign_all {V} (l : list (string * V)) : record V :=
  foldl (fun o kv => Obj.assign kv.1 kv.2 o) [] l.

(** A key that [Object.entries] leaves in insertion order. *)
Definition plain_name (k : string) : Prop :=
  Obj.array_index k = None ∧ k ≠ "__proto__".

#[global] Instance plain_name_dec k : Decision (plain_name k).
Proof. unfold plain_name. apply _. Defined.

(** A value that is neither null nor undefined. *)
Definition present (v : jsval) : bool :=
  match v with VNull | VUndefined => false | _ => true end.

(** *** Query strings and signed texts *)

(** The pair an entry contributes to a query string. *)
Definition pair_of (p : Param) : string :=
  name p +:+ "=" +:+ encodeURIComponent (value p).

(** The query string as the spec words it: a pair for each active entry,
    in sequence order. *)
Definition spec_queryString (pairs : list Param) : string :=
  join "&" (pair_of <$> filter (fun p => active p = true) pairs).

(** The query component as the spec words it: the active entries other
    than [signature], then the [timestamp] last. *)
Definition claimed_query (params : list Param) (now : N) : string :=
  join "&"
    ((pair_of <$> filter (fun p => active p = true ∧ name p ≠ "signature") params)
       ++ ["timestamp=" +:+ encodeURIComponent (decimal now)]).

(** Two components joined by an ampersand, an empty one left out. *)
Definition join_components (a b : string) : string :=
  join "&" (filter (fun s => s ≠ EmptyString) [a; b]).

(** A text that reads as a JSON object: white space, an opening brace,
    anything, a closing brace, white space. *)
Definition object_text (t : string) : Prop :=
  ∃ a mid b,
    chars t = a ++ chars "{" ++ mid ++ chars "}" ++ b
    ∧ Forall (fun c => Json.whitespace c = true) a
    ∧ Forall (fun c => Json.whitespace c = true) b.

(** *** The store *)

(** The array at [a] is in the store, and so are the entries it holds. *)
Definition array_in_store (σ : store) (a : loc) : Prop :=
  ∃ els, σ !! a = Some (ArrCell els)
         ∧ Forall (fun l => is_Some (param_at σ l)) els.

Definition form_in_store (σ : store) (data : PlaygroundForm loc) : Prop :=
  array_in_store σ (queryParams data) ∧ array_in_store σ (headers data).

(** The array at [a] holds, in order, the entries [ps]. *)
Definition holds (σ : store) (a : loc) (ps : list Param) : Prop :=
  ∃ els, σ !! a = Some (ArrCell els)
         ∧ Forall2 (fun l p => param_at σ l = Some p) els ps.

(** *** Headers of the forwarder *)

(** A header name the forwarder strips, and one it passes on. *)
Definition stripped (k : string) : Prop :=
  toLowerCase k ∈ ["host"; "connection"; "content-length"].

Definition forwardable (k : string) : Prop :=
  k ≠ EmptyString ∧ ¬ stripped k ∧ k ≠ "__proto__".

#[global] Instance forwardable_dec k : Decision (forwardable k).
Proof. unfold forwardable, stripped. apply _. Defined.

(** *** Sample data *)

Definition symbol_BTCUSDT : Param :=
  {| name := "symbol"; value := "BTCUSDT"; active := true; enum := None |}.

Definition api_key_header : Param :=
  {| name := "X-MBX-APIKEY"; value := "key"; active := true; enum := None |}.

(** An inactive [timestamp] entry typed by the user, ahead of another
    parameter. *)
Definition stale_timestamp : list Param :=
  [ {| name := "timestamp"; value := "1"; active := false; enum := None |};
    symbol_BTCUSDT ].

(** Two [signature] entries. *)
Definition two_signatures : list Param :=
  [ {| name := "signature"; value := "aa"; active := true; enum := None |};
    {| name := "signature"; value := "bb"; active := false; enum := None |} ].

(** Entries of a form: one inactive, one without a name. *)
Definition order_query : list Param :=
  [ symbol_BTCUSDT;
    {| name := "recvWindow"; value := "5000"; active := false; enum := None |};
    {| name := EmptyString; value := "x"; active := true; enum := None |};
    {| name := "limit"; value := "10 "; active := true; enum := Some ["10 "; "20"] |} ].

(** Two active entries of one name, and an entry named by a number. *)
Definition repeated_symbol : list Param :=
  [ {| name := "symbols"; value := "BTC"; active := true; enum := None |};
    {| name := "symbols"; value := "ETH"; active := true; enum := None |} ].

Definition numbered_entry : list Param :=
  [ {| name := "symbol"; value := "BTC"; active := true; enum := None |};
    {| name := "1"; value := "x"; active := true; enum := None |} ].

(** A signed POST of an order, the form that goes with it, and the same
    operation as an unsigned GET typed in lower case. *)
Definition signed_post : Props :=
  {| server := Some "https://api.example.com"; url := "/orders";
     method := "POST"; isSigned := true; apiKeyHeaderName := "X-MBX-APIKEY" |}.

Definition plain_get : Props :=
  {| server := Some "https://api.example.com"; url := "/orders";
     method := "get"; isSigned := false; apiKeyHeaderName := "X-MBX-APIKEY" |}.

Definition order_form (secret : string) (params : list Param) (body' : string)
    : PlaygroundForm (list Param) :=
  {| apiSecret := Some secret; body := body'; bodyMode := Some ModeText;
     file := None; multipartFormFields := [];
     queryParams := params; pathParams := []; headers := [api_key_header];
     identity := Some NO_IDENTITY |}.

(** The body of an order as JSON text, with white space around it. *)
Definition order_body : string :=
  " {" +:+ Json.quote "side" +:+ ":" +:+ Json.quote "BUY" +:+ ","
    +:+ Json.quote "quantity" +:+ ":2} ".

(** A store that holds the form of scenario A: the entry [symbol] is
    held by the array of query parameters at 3, the API-key header by the
    array of headers at 4. *)
Definition sample_store : store :=
  <[1%positive := ObjCell symbol_BTCUSDT]>
    (<[2%positive := ObjCell api_key_header]>
       (<[3%positive := ArrCell [1%positive]]>
          (<[4%positive := ArrCell [2%positive]]> ∅))).

Definition sample_form_ref : PlaygroundForm loc :=
  {| apiSecret := Some "s3cr3t"; body := EmptyString; bodyMode := Some ModeText;
     file := None; multipartFormFields := [];
     queryParams := 3%positive; pathParams := []; headers := 4%positive;
     identity := Some NO_IDENTITY |}.

(** A header list that names [Accept] twice, and one with distinct names. *)
Definition repeated_header : list (string * string) :=
  [("Accept", "text/plain"); ("Accept", "application/json")].

Definition replayed_headers : list (string * string) :=
  [("Host", "evil.example"); ("X-Trace", "1"); ("CONTENT-LENGTH", "7");
   ("Connection", "close"); ("Accept", "text/html")].

(** Scenario C: a GET of a plain-http URL. *)
Definition insecure_get : Proxy.ProxyBody :=
  {| Proxy.method := Some "GET";
     Proxy.url := Some "http://insecure.example.com";
     Proxy.headers := None;
     Proxy.body := None |}.

(** A HEAD request, spelled in lower case, that carries a body. *)
Definition head_with_body : Proxy.ProxyBody :=
  {| Proxy.method := Some "head";
     Proxy.url := Some "https://api.example.com/orders";
     Proxy.headers := Some [("Host", "evil.example"); ("X-Trace", "1")];
     Proxy.body := Some "payload" |}.

End Terms.

(** ** Vocabulary of the further properties *)

Module MoreTerms.
Import Playground.

(** What holds of the record under construction: no key twice, keys and
    values trimmed, no value empty. *)
Definition tidy (out : record string) : Prop :=
  NoDup out.*1
  ∧ Forall (fun kv : string * string =>
              trim kv.1 = kv.1 ∧ kv.2 ≠ EmptyString ∧ trim kv.2 = kv.2) out.

(** A byte. *)
Definition is_byte (b : Z) : Prop := (0 <= b < 256)%Z.

(** A lower-case hexadecimal digit. *)
Definition is_hex_lower (c : ascii) : bool := is_digit c || in_range 97 102 c.

(** The list starts with a white space of one, two or three bytes; with
    [fwd = false] the list is a reversed text. *)
Definition starts_space (fwd : bool) (l : list ascii) : bool :=
  match l with
  | [] => false
  | a :: r1 =>
      is_space1 a
      || match r1 with
         | [] => false
         | b :: r2 =>
             (if fwd then is_space2 a b else is_space2 b a)
             || match r2 with
                | [] => false
                | c :: _ => if fwd then is_space3 a b c else is_space3 c b a
                end
         end
  end.

(** The query parameters a signing leaves, or the error it throws. *)
Definition signed_params (r : result (PlaygroundForm (list Param)))
    : result (list Param) :=
  match r with Ok d => Ok (queryParams d) | Throw e => Throw e end.

(** The form with its secret and its body trimmed. *)
Definition trimmed_form (d : PlaygroundForm (list Param))
    : PlaygroundForm (list Param) :=
  {| apiSecret := Some (trim (default EmptyString (apiSecret d)));
     body := trim (body d); bodyMode := bodyMode d; file := file d;
     multipartFormFields := multipartFormFields d;
     queryParams := queryParams d; pathParams := pathParams d;
     headers := headers d; identity := identity d |}.

(** An entry whose name is neither [timestamp] nor [signature]. *)
Definition user_entry (p : Param) : Prop :=
  name p ≠ "timestamp" ∧ name p ≠ "signature".

(** A form in which an inactive API-key header stands before an active
    one of the same name. *)
Definition shadowed_key_form : PlaygroundForm (list Param) :=
  {| apiSecret := Some "s3cr3t"; body := EmptyString; bodyMode := Some ModeText;
     file := None; multipartFormFields := [];
     queryParams := [Terms.symbol_BTCUSDT]; pathParams := [];
     headers :=
       [ {| name := "X-MBX-APIKEY"; value := "old"; active := false; enum := None |};
         Terms.api_key_header ];
     identity := Some NO_IDENTITY |}.

End MoreTerms.

(** ** The operation list item: reading of extensions

    [OperationListItem.tsx], lines 25-44. The value of an extension is
    any JSON value. *)

Module ListItem.

(** Lines 25-33. A number is held as the text [String] gives of it: [0]
    and [-0] both read [0]. *)
Definition isTruthy (value : jsval) : bool :=
  match value with
  | VBool true => true
  | VStr v =>
      let s := toLowerCase (trim v) in
      bool_decide (s = "true") || bool_decide (s = "1") || bool_decide (s = "yes")
  | VNum n => negb (bool_decide (n = "0"))
  | _ => false
  end.

(** [!value]. *)
Definition falsy (value : jsval) : bool :=
  match value with
  | VUndefined | VNull | VBool false => true
  | VNum n => bool_decide (n = "0") || bool_decide (n = "NaN")
  | VStr s => bool_decide (s = EmptyString)
  | _ => false
  end.

(** Lines 35-44. *)
Definition normalizeNotes (value : jsval) : list string :=
  if falsy value then []
  else
    match value with
    | VArr items =>
        filter (fun s => s ≠ EmptyString)
          ((fun v => match v with VStr s => trim s | _ => EmptyString end)
             <$> items)
    | VStr s => if bool_decide (trim s ≠ EmptyString) then [trim s] else []
    | _ => []
    end.

End ListItem.

(** ** The playground component: declared parameters and the default form

    [OperationListItem.tsx], lines 500-522, 626-660 and 945-947. *)

Module Component.
Import Playground.

(** [Header] and [QueryParam], two types of the same fields. *)
Record Header := {
  h_name : string;
  h_defaultValue : option string;
  h_defaultActive : option bool;
  h_isRequired : option bool;
  h_enum : option (list string);
  h_type : option string
}.

Record PathParam := {
  pp_name : string;
  pp_defaultValue : option string;
  pp_isRequired : option bool
}.

Definition empty_row (enum' : option (list string)) : Param :=
  {| name := EmptyString; value := EmptyString; active := false; enum := enum' |}.

(** Lines 628-659: the default values of the form. [remembered] is what
    [getRememberedIdentity] returns; [sortedPathParams] is the constant
    of line 622. *)
Definition defaultValues (queryParams' headers' : list Header)
    (sortedPathParams : list PathParam) (defaultBody : string)
    (remembered : option string) : PlaygroundForm (list Param) :=
  {| apiSecret := Some EmptyString;
     body := defaultBody;
     bodyMode := Some ModeText;
     file := None;
     multipartFormFields := [];
     queryParams :=
       if bool_decide (0 < length queryParams')%nat
       then (fun param =>
               {| name := h_name param;
                  value := default EmptyString (h_defaultValue param);
                  active := default false (h_isRequired param);
                  enum := Some (default [] (h_enum param)) |}) <$> queryParams'
       else [empty_row (Some [])];
     pathParams :=
       (fun param => (pp_name param, default EmptyString (pp_defaultValue param)))
         <$> sortedPathParams;
     headers :=
       if bool_decide (0 < length headers')%nat
       then (fun header =>
               {| name := h_name header;
                  value := default EmptyString (h_defaultValue header);
                  active := default false (h_isRequired header);
                  enum := None |}) <$> headers'
       else [empty_row None];
     identity := remembered |}.

(** Lines 945-947. *)
Definition isBodySupported (method' : string) : bool :=
  bool_decide (toUpperCase method' ∈ ["POST"; "PUT"; "PATCH"; "DELETE"]).

End Component.

(** ** The dialog wrapper

    [PlaygroundDialogWrapper], lines 7-15 and 64-66. *)

Module Wrapper.
Import Playground Component.

(** Lines 7-15. *)
Definition isTruthyExtension (v : jsval) : bool :=
  match v with
  | VBool true => true
  | VNum n => bool_decide (n = "1")
  | VStr v =>
      let s := toLowerCase (trim v) in
      bool_decide (s = "true") || bool_decide (s = "1")
      || bool_decide (s = "yes") || bool_decide (s = "y")
  | _ => false
  end.

(** Lines 64-66; [headers] is absent when the operation has no list of
    parameters. *)
Definition apiKeyHeaderName (headers' : option (list Header)) : string :=
  default "X-MBX-APIKEY"
    (h_name <$>
       (headers' ≫= find_ (fun h => toLowerCase (h_name h) = "x-mbx-apikey"))).

End Wrapper.

(** ** The sidecar: connector examples

    [Sidecar.tsx], lines 67-98. *)

Module Sidecar.

Section Examples.

(** The names an empty object reads as truthy: those it inherits from
    [Object.prototype]. *)
Variable inherited : string -> bool.

(** [!out[k]] on a record of texts. *)
Definition unset (k : string) (out : record string) : bool :=
  match Playground.find_ (fun kv : string * string => kv.1 = k) out with
  | Some kv => bool_decide (kv.2 = EmptyString)
  | None => negb (inherited k)
  end.

(** Lines 75-78. *)
Definition collect (rec : record jsval) (out : record string) : record string :=
  foldl (fun out kv =>
           match kv.2 with
           | VStr v =>
               if (0 <? String.length (trim v))%nat
               then Obj.assign (trim kv.1) (trim v) out
               else out
           | _ => out
           end)
        out rec.

(** Lines 87-91. *)
Definition collect_unset (rec : record jsval) (out : record string)
    : record string :=
  foldl (fun out kv =>
           match kv.2 with
           | VStr v =>
               if (0 <? String.length (trim v))%nat
               then
                 if unset (trim kv.1) out
                 then Obj.assign (trim kv.1) (trim v) out
                 else out
               else out
           | _ => out
           end)
        out rec.

Definition nonempty (out : record string) : option (record string) :=
  if bool_decide (0 < length out.*1)%nat then Some out else None.

(** Lines 67-98; [None] is [undefined]. *)
Definition parseConnectorsExamples (raw : jsval) : option (record string) :=
  if ListItem.falsy raw then None
  else
    match raw with
    | VObj rec => nonempty (collect rec [])
    | VArr items =>
        nonempty
          (foldl (fun out item =>
                    match item with
                    | VObj rec => collect_unset rec out
                    | _ => out
                    end)
                 [] items)
    | _ => None
    end.

End Examples.

End Sidecar.

(** ** The submission, after the call of the proxy

    [OperationListItem.tsx], lines 816-895. *)

Module Completion.
Import Playground.

(** The JSON document of the proxy, as [proxyRes.json()] gives it at its
    declared type. *)
Record Payload := {
  pl_status : Z;
  pl_headers : option (list (string * string));
  pl_body : option string;
  pl_size : option Z;
  pl_contentType : option string
}.

(** What the submission reads of the response of the proxy. *)
Record ProxyRes := {
  pr_ok : bool;
  pr_status : N;
  pr_text : result string;
  pr_json : result Payload
}.

Record RequestEcho := {
  rq_method : string;
  rq_url : string;
  rq_headers : list (string * string);
  rq_body : string
}.

(** [PlaygroundResult], without [time]. *)
Record PlaygroundResult := {
  r_status : Z;
  r_headers : list (string * string);
  r_size : Z;
  r_body : string;
  r_isBinary : bool;
  r_fileName : option string;
  r_request : RequestEcho
}.

(** What these lines use and the sources do not define. *)
Class Platform := {
  isBinaryContentType : string -> bool;
  extractFileName : list (string * string) -> string -> option string;
  (** [new URL(url).host]; [None] when the constructor throws. *)
  URL_host : string -> option string
}.

(** Lines 851-865. *)
Definition requestBodyDebug (signedData : PlaygroundForm (list Param)) : string :=
  match bodyMode signedData with
  | Some ModeText => body signedData
  | Some ModeFile =>
      "[File: " +:+ default "Unknown" (file_name <$> file signedData) +:+ "]"
  | Some ModeMultipart => "[Multipart Form Data]"
  | None => body signedData
  end.

Section Completion.
Context `{Platform}.

(** Lines 821-885, inside the [try]. *)
Definition read (signedData : PlaygroundForm (list Param))
    (env : ProxyEnvelope) (proxyRes : ProxyRes) : result PlaygroundResult :=
  if negb (pr_ok proxyRes)
  then
    msg ← pr_text proxyRes;
    Throw (new_Error
             (if bool_decide (msg = EmptyString)
              then "Proxy request failed (" +:+ decimal (pr_status proxyRes) +:+ ")"
              else msg))
  else
    payload ← pr_json proxyRes;
    let responseHeaders := default [] (pl_headers payload) in
    let contentType :=
      match pl_contentType payload with
      | Some c => c
      | None =>
          default EmptyString
            (snd <$>
               find_ (fun kv : string * string => toLowerCase kv.1 = "content-type")
                     responseHeaders)
      end in
    let isBinary := isBinaryContentType contentType in
    let responseBody := default EmptyString (pl_body payload) in
    let responseSize :=
      match pl_size payload with
      | Some n => n
      | None => Z.of_nat (utf16_length responseBody)
      end in
    host ← match URL_host (env_url env) with
           | Some h => Ok h
           | None => Throw {| type_error := true; message := "Invalid URL" |}
           end;
    Ok {| r_status := pl_status payload;
          r_headers := responseHeaders;
          r_size := responseSize;
          r_body := responseBody;
          r_isBinary := isBinary;
          r_fileName := extractFileName responseHeaders (env_url env);
          r_request :=
            {| rq_method := env_method env;
               rq_url := env_url env;
               rq_headers :=
                 [("Host", host);
                  ("User-Agent", "Binance Developer Docs Playground")]
                 ++ env_headers env;
               rq_body := requestBodyDebug signedData |} |}.

(** Lines 796-895: from the call of the proxy to the result or the error
    of the submission. [proxyRes] is what [fetch(proxyUrl, ...)] gives. *)
Definition complete (signedData : PlaygroundForm (list Param))
    (env : ProxyEnvelope) (proxyRes : result ProxyRes)
    : result PlaygroundResult :=
  catch_remap (proxyRes ≫= read signedData env).

End Completion.

End Completion.

(** ** Between the playground and the proxy

    The envelope is posted as JSON text and read back by [readJson]; the
    response of the proxy is read by the submission. *)

Module Wire.

(** The envelope as [readJson] gives it: [JSON.stringify] leaves out a
    body that is [undefined]. *)
Definition request (env : Playground.ProxyEnvelope) : Proxy.ProxyBody :=
  {| Proxy.method := Some (Playground.env_method env);
     Proxy.url := Some (Playground.env_url env);
     Proxy.headers := Some (Playground.env_headers env);
     Proxy.body := Playground.env_body env |}.

(** The document of lines 92-98 of the proxy, read back. *)
Definition payload (f : Proxy.Forwarded) : Completion.Payload :=
  {| Completion.pl_status := Proxy.fw_status f;
     Completion.pl_headers := Some (Proxy.fw_headers f);
     Completion.pl_body := Some (Proxy.fw_body f);
     Completion.pl_size := Some (Z.of_nat (Proxy.fw_size f));
     Completion.pl_contentType := Some (Proxy.fw_contentType f) |}.

(** What the submission reads is what the proxy sent: [ok] is a status
    from 200 to 299, a text is read as sent and a JSON document gives
    back its fields. *)
Definition delivers (r : Proxy.Response) (p : Completion.ProxyRes) : Prop :=
  Completion.pr_ok p
  = ((200 <=? Proxy.res_status r)%Z && (Proxy.res_status r <=? 299)%Z)
  ∧ Completion.pr_status p = Z.to_N (Proxy.res_status r)
  ∧ (∀ s, Proxy.res_sent r = Proxy.SentText s -> Completion.pr_text p = Ok s)
  ∧ (∀ f, Proxy.res_sent r = Proxy.SentJson f ->
          Completion.pr_json p = Ok (payload f)).

End Wire.

(** ** More sample data *)

Module Samples.
Import Playground.

(** The response of the proxy to a request it refuses, as the
    submission reads it. *)
Definition refused (status : N) (msg : string) : Completion.ProxyRes :=
  {| Completion.pr_ok := false; Completion.pr_status := status;
     Completion.pr_text := Ok msg;
     Completion.pr_json := Throw (new_Error "Unexpected token") |}.

(** The response of the proxy with a document. *)
Definition answered (f : Proxy.Forwarded) : Completion.ProxyRes :=
  {| Completion.pr_ok := true; Completion.pr_status := 200;
     Completion.pr_text := Ok EmptyString;
     Completion.pr_json := Ok (Wire.payload f) |}.

(** A reading of the lines the sources do not define: no response is
    binary, none names a file, and the host is the text after the two
    slashes. *)
#[export] Instance reader : Completion.Platform := {|
  Completion.isBinaryContentType _ := false;
  Completion.extractFileName _ _ := None;
  Completion.URL_host u :=
    if startsWith "https://" u
    then Some (String.substring 8 (String.length u - 8) u) else None
|}.

(** An upstream that cannot be reached. *)
Definition unreachable : Proxy.Platform := {|
  Proxy.URL_parse := Reference.URL_parse;
  Proxy.fetch _ := Throw {| type_error := true; message := "fetch failed" |}
|}.

Definition plain_post : Props :=
  {| server := Some "https://api.example.com"; url := "/orders";
     method := "post"; isSigned := false; apiKeyHeaderName := "X-MBX-APIKEY" |}.

Definition envelope (method' url' : string) : ProxyEnvelope :=
  {| env_method := method'; env_url := url';
     env_headers := [("x-mbx-apikey", "key")]; env_body := None |}.

Definition text_form (body' : string) : PlaygroundForm (list Param) :=
  {| apiSecret := None; body := body'; bodyMode := Some ModeText;
     file := None; multipartFormFields := [];
     queryParams := []; pathParams := []; headers := [];
     identity := Some NO_IDENTITY |}.

Definition file_form : PlaygroundForm (list Param) :=
  {| apiSecret := None; body := "ignored"; bodyMode := Some ModeFile;
     file := Some {| file_name := "order.csv" |}; multipartFormFields := [];
     queryParams := [];  pathParams := [];
     headers := [ {| name := "Content-Type"; value := "text/csv";
                     active := true; enum := None |} ];
     identity := Some NO_IDENTITY |}.

(** The names an object inherits from [Object.prototype]. *)
Definition inherited_names (k : string) : bool :=
  bool_decide
    (k ∈ ["constructor"; "hasOwnProperty"; "isPrototypeOf";
          "propertyIsEnumerable"; "toLocaleString"; "toString"; "valueOf";
          "__defineGetter__"; "__defineSetter__"; "__lookupGetter__";
          "__lookupSetter__"; "__proto__"]).

Definition key_header (name' : string) (required : bool) : Component.Header :=
  {| Component.h_name := name'; Component.h_defaultValue := Some "key";
     Component.h_defaultActive := Some required;
     Component.h_isRequired := Some required;
     Component.h_enum := None; Component.h_type := None |}.

End Samples.

(** * Properties *)

(** ** The platform model on known values *)

Module PlatformChecks.
Import Playground.

(** FIPS 180-4, appendix B.1, and RFC 4231, test case 2. *)
Example sha256_abc :
  bufferToHex (Sha256.sha256 (utf8 "abc"))
  = "ba7816bf8f01cfea414140de5dae2223b00361a396177a9cb410ff61f20015ad".
Proof. vm_compute. reflexivity. Qed.

Example sha256_two_blocks :
  bufferToHex
    (Sha256.sha256
       (utf8 "abcdbcdecdefdefgefghfghighijhijkijkljklmklmnlmnomnopnopq"))
  = "248d6a61d20638b8e5c026930c3e6039a33ce45964ff2167f6ecedd419db06c1".
Proof. vm_compute. reflexivity. Qed.

Example hmacSha256Hex_rfc4231 :
  hmacSha256Hex "Jefe" "what do ya want for nothing?"
  = "5bdcc146bf60754e6a042426089575c75a003f089d2739839dec58b964ec3843".
Proof. vm_compute. reflexivity. Qed.

Example trim_spaces :
  trim (String (char 9) "  a b " +:+ String (char 194) (String (char 160) EmptyString))
  = "a b".
Proof. reflexivity. Qed.

Example encodeURIComponent_reserved :
  encodeURIComponent "a b&c=d/e~(f)" = "a%20b%26c%3Dd%2Fe~(f)".
Proof. reflexivity. Qed.

Example decimal_epoch : decimal 1700000000123 = "1700000000123".
Proof. reflexivity. Qed.

(** Array indices first, in numeric order; then the other keys as they
    were defined; a key defined twice keeps its place. *)
Example define_order :
  Obj.define "b" 6 (Obj.define "2" 5 (Obj.define "10" 4
    (Obj.define "01" 3 (Obj.define "b" 2 (Obj.define "a" 1 [])))))
  = [("2", 5); ("10", 4); ("a", 1); ("b", 6); ("01", 3)].
Proof. reflexivity. Qed.

Example assign_proto : Obj.assign "__proto__" 1 [("a", 0)] = [("a", 0)].
Proof. reflexivity. Qed.

Example reference_parse_order_body :
  Reference.JSON_parse Terms.order_body
  = Some (VObj [("side", VStr "BUY"); ("quantity", VNum "2")]).
Proof. vm_compute. reflexivity. Qed.

Example reference_parse_rejects :
  Reference.JSON_parse "[1,2" = None ∧ Reference.JSON_parse "{} x" = None
  ∧ Reference.JSON_parse "01" = None.
Proof. split_and!; vm_compute; reflexivity. Qed.

End PlatformChecks.

(** ** Lists: the first match of [findIndex] *)

Section FirstMatch.
Context {A : Type} (P : A -> Prop) `{!∀ x, Decision (P x)}.

Lemma list_find_split (l : list A) (i : nat) (x : A) :
  list_find P l = Some (i, x) ->
  ∃ pre post, l = pre ++ x :: post ∧ length pre = i
              ∧ Forall (fun y => ¬ P y) pre ∧ P x.
Proof.
  intros Hf. apply list_find_Some in Hf as (Hl & HP & Hlt).
  exists (take i l), (drop (S i) l). split_and!.
  - by rewrite take_drop_middle.
  - apply length_take_le. apply lookup_lt_Some in Hl. lia.
  - apply Forall_lookup_2. intros j y Hj.
    apply lookup_take_Some in Hj as [Hj ?]. eauto.
  - done.
Qed.

Lemma list_find_first (pre post : list A) (x : A) :
  Forall (fun y => ¬ P y) pre -> P x ->
  list_find P (pre ++ x :: post) = Some (length pre, x).
Proof.
  intros Hpre HP. apply list_find_Some. split_and!.
  - by rewrite list_lookup_middle.
  - done.
  - intros j y Hj Hlt. rewrite lookup_app_l in Hj by done.
    eapply Forall_lookup_1 in Hpre; eauto.
Qed.

Lemma list_find_absent (l : list A) :
  Forall (fun y => ¬ P y) l -> list_find P l = None.
Proof. apply list_find_None. Qed.

End FirstMatch.

(** ** [upsertActiveParam] *)

Module Upsert.
Import Playground Terms.

Lemma upsert_found (pre post : list Param) (p : Param) (n v : string) :
  name p = n -> Forall (fun q => name q ≠ n) pre ->
  upsertActiveParam (pre ++ p :: post) n v = pre ++ refreshed p v :: post.
Proof.
  intros Hp Hpre. unfold upsertActiveParam, findIndex.
  rewrite (list_find_first (fun q => name q = n) pre post p Hpre Hp). simpl.
  rewrite list_lookup_middle by done.
  by rewrite insert_app_r_alt, Nat.sub_diag by lia.
Qed.

Lemma upsert_absent (ps : list Param) (n v : string) :
  Forall (fun q => name q ≠ n) ps ->
  upsertActiveParam ps n v = ps ++ [appended n v].
Proof.
  intros Hps. unfold upsertActiveParam, findIndex.
  by rewrite (list_find_absent (fun q => name q = n) ps Hps).
Qed.

(** Every list is of one of the two shapes. *)
Lemma first_match_or_none (n : string) (ps : list Param) :
  (∃ pre p post, ps = pre ++ p :: post ∧ name p = n
                 ∧ Forall (fun q => name q ≠ n) pre)
  ∨ Forall (fun q => name q ≠ n) ps.
Proof.
  destruct (list_find (fun q => name q = n) ps) as [[i p]|] eqn:Hf.
  - apply list_find_split in Hf as (pre & post & -> & _ & Hpre & Hp).
    left. by exists pre, p, post.
  - right. by apply list_find_None in Hf.
Qed.

Lemma count_name_app (n : string) (l1 l2 : list Param) :
  count_name n (l1 ++ l2) = (count_name n l1 + count_name n l2)%nat.
Proof. unfold count_name. by rewrite filter_app, length_app. Qed.

Lemma count_name_cons (n : string) (p : Param) (l : list Param) :
  count_name n (p :: l)
  = ((if decide (name p = n) then 1 else 0) + count_name n l)%nat.
Proof.
  unfold count_name. rewrite filter_cons. by destruct (decide (name p = n)).
Qed.

Lemma count_name_absent (n : string) (l : list Param) :
  Forall (fun q => name q ≠ n) l -> count_name n l = 0%nat.
Proof.
  unfold count_name. induction 1 as [|q l Hq _ IH]; [done|].
  rewrite filter_cons. by destruct (decide (name q = n)).
Qed.

Lemma upsert_count (ps : list Param) (n v : string) :
  count_name n (upsertActiveParam ps n v) = Nat.max 1 (count_name n ps).
Proof.
  destruct (first_match_or_none n ps) as [(pre & p & post & -> & Hp & Hpre)|Hps].
  - rewrite upsert_found by done.
    rewrite !count_name_app, !count_name_cons. simpl.
    destruct (decide (name p = n)); [lia|done].
  - rewrite upsert_absent by done.
    rewrite count_name_app, count_name_cons, count_name_absent by done.
    simpl. by destruct (decide (n = n)).
Qed.

Lemma upsert_named (ps : list Param) (n v : string) :
  ∃ p, named n (upsertActiveParam ps n v) = Some p
       ∧ name p = n ∧ value p = v ∧ active p = true.
Proof.
  unfold named, find_.
  destruct (first_match_or_none n ps) as [(pre & p & post & -> & Hp & Hpre)|Hps].
  - rewrite upsert_found by done. exists (refreshed p v).
    by rewrite (list_find_first (fun q => name q = n) pre post (refreshed p v) Hpre Hp).
  - rewrite upsert_absent by done. exists (appended n v).
    by rewrite (list_find_first (fun q => name q = n) ps [] (appended n v) Hps eq_refl).
Qed.

(** C10. When an entry carries the upserted name, [upsertActiveParam]
    replaces the first such entry in place: the entries before and after
    it stay where they are, the entry keeps its name (and its [enum]),
    takes the new value and becomes active whatever its flag was. Only
    when no entry carries the name is a new active entry appended at the
    end. *)
Theorem upsertActiveParam_first_match_in_place (ps : list Param) (n v : string) :
  (∀ pre p post,
     ps = pre ++ p :: post -> name p = n -> Forall (fun q => name q ≠ n) pre ->
     upsertActiveParam ps n v
     = pre ++ {| name := name p; value := v; active := true; enum := enum p |}
           :: post)
  ∧ (Forall (fun q => name q ≠ n) ps ->
     upsertActiveParam ps n v
     = ps ++ [{| name := n; value := v; active := true; enum := Some [] |}]).
Proof.
  split.
  - intros pre p post -> Hp Hpre. by apply upsert_found.
  - apply upsert_absent.
Qed.

(** The inactive [timestamp] of the user is made active where it stands,
    ahead of [symbol]; nothing is appended. *)
Lemma upsertActiveParam_first_match_in_place_witness :
  upsertActiveParam stale_timestamp "timestamp" "1700000000000"
  = [ {| name := "timestamp"; value := "1700000000000"; active := true;
         enum := None |};
      {| name := "symbol"; value := "BTCUSDT"; active := true; enum := None |} ].
Proof.
  apply (proj1 (upsertActiveParam_first_match_in_place
                  stale_timestamp "timestamp" "1700000000000")
           [] {| name := "timestamp"; value := "1"; active := false; enum := None |}
           [symbol_BTCUSDT]).
  - reflexivity.
  - reflexivity.
  - constructor.
Defined.



End Upsert.

(** ** Objects as dictionaries *)

Module ObjFacts.
Import Obj.

Section Define.
Context {V : Type}.
Implicit Types (o : record V) (k : string) (v : V).

Lemma has_true k o : has k o = true <-> k ∈ o.*1.
Proof. unfold has. apply bool_decide_eq_true. Qed.

Lemma has_false k o : has k o = false <-> k ∉ o.*1.
Proof. unfold has. apply bool_decide_eq_false. Qed.

Lemma replace_keys k v o : (replace k v o).*1 = o.*1.
Proof.
  induction o as [|[k' v'] o IH]; [done|]. cbn [replace].
  case_bool_decide; [by subst|]. by rewrite !fmap_cons, IH.
Qed.

Lemma elem_of_replace k0 v0 k v o :
  NoDup o.*1 -> k0 ∈ o.*1 ->
  (k, v) ∈ replace k0 v0 o <-> (k = k0 ∧ v = v0) ∨ (k ≠ k0 ∧ (k, v) ∈ o).
Proof.
  induction o as [|[k' v'] o IH]; cbn [replace]; intros Hnd Hin.
  - by apply elem_of_nil in Hin.
  - rewrite fmap_cons in Hnd, Hin. cbn [fst] in Hnd, Hin.
    apply NoDup_cons in Hnd as [Hk' Hnd].
    case_bool_decide as Hk; subst.
    + rewrite !elem_of_cons. split.
      * intros [[= -> ->]|Ho]; [by left|]. right. split; [|by right].
        intros ->. apply Hk'. apply list_elem_of_fmap. by exists (k0, v).
      * intros [[-> ->]|[Hne [[= -> ->]|Ho]]]; [by left|done|by right].
    + apply elem_of_cons in Hin as [->|Hin]; [done|].
      rewrite !elem_of_cons, IH by done. split.
      * intros [[= -> ->]|[?|[? ?]]]; [right; split; [done|by left]|by left|].
        right. split; [done|by right].
      * intros [?|[Hne [[= -> ->]|Ho]]]; [right; by left|by left|].
        right. right. done.
Qed.

Lemma insert_index_perm n k v o : insert_index n k v o ≡ₚ (k, v) :: o.
Proof.
  induction o as [|[k' v'] o IH]; cbn [insert_index]; [done|].
  destruct (array_index k') as [n'|]; [|done].
  destruct (n <? n')%N; [done|]. rewrite IH. apply Permutation_swap.
Qed.

Lemma define_perm k v o : k ∉ o.*1 -> define k v o ≡ₚ (k, v) :: o.
Proof.
  intros Hk. unfold define. apply has_false in Hk. rewrite Hk.
  destruct (array_index k).
  - apply insert_index_perm.
  - by rewrite Permutation_app_comm.
Qed.

(** A key that is no array index and is not yet present goes last. *)
Lemma define_last k v o :
  k ∉ o.*1 -> array_index k = None -> define k v o = o ++ [(k, v)].
Proof.
  intros Hk Hi. unfold define. apply has_false in Hk. by rewrite Hk, Hi.
Qed.

Lemma define_NoDup k v o : NoDup o.*1 -> NoDup (define k v o).*1.
Proof.
  intros Hnd. destruct (decide (k ∈ o.*1)) as [Hin|Hin].
  - unfold define. apply has_true in Hin. by rewrite Hin, replace_keys.
  - rewrite (define_perm k v o Hin), fmap_cons. by apply NoDup_cons.
Qed.

Lemma elem_of_define k0 v0 k v o :
  NoDup o.*1 ->
  (k, v) ∈ define k0 v0 o <-> (k = k0 ∧ v = v0) ∨ (k ≠ k0 ∧ (k, v) ∈ o).
Proof.
  intros Hnd. destruct (decide (k0 ∈ o.*1)) as [Hin|Hin].
  - unfold define. pose proof Hin as Hh. apply has_true in Hh. rewrite Hh.
    by apply elem_of_replace.
  - rewrite (define_perm k0 v0 o Hin), elem_of_cons. split.
    + intros [[= -> ->]|Ho]; [by left|]. right. split; [|done].
      intros ->. apply Hin. apply list_elem_of_fmap. by exists (k0, v).
    + intros [[-> ->]|[_ Ho]]; [by left|by right].
Qed.

Lemma assign_NoDup k v o : NoDup o.*1 -> NoDup (assign k v o).*1.
Proof. unfold assign. case_bool_decide; [done|apply define_NoDup]. Qed.

Lemma elem_of_assign k0 v0 k v o :
  NoDup o.*1 ->
  (k, v) ∈ assign k0 v0 o
  <-> (k0 ≠ "__proto__" ∧ k = k0 ∧ v = v0)
      ∨ ((k0 = "__proto__" ∨ k ≠ k0) ∧ (k, v) ∈ o).
Proof.
  intros Hnd. unfold assign. case_bool_decide as Hp.
  - naive_solver.
  - rewrite elem_of_define by done. naive_solver.
Qed.

End Define.

End ObjFacts.

(** ** Objects built by assigning a list of pairs *)

Module AssignFacts.
Import Obj ObjFacts Terms.

Section Pairs.
Context {V : Type}.
Implicit Types (l : list (string * V)) (k : string) (v : V).

Lemma last_named_nil k v : ¬ last_named (V:=V) [] k v.
Proof. intros (pre & post & Heq & _). by destruct pre. Qed.

Lemma last_named_snoc_eq l k v v0 : last_named (l ++ [(k, v0)]) k v <-> v = v0.
Proof.
  split.
  - intros (pre & post & Heq & Hk).
    destruct post as [|y post _] using rev_ind.
    + apply app_inj_tail in Heq as [_ [= ->]]. done.
    + rewrite app_comm_cons, app_assoc in Heq.
      apply app_inj_tail in Heq as [_ <-].
      rewrite fmap_app in Hk. exfalso. apply Hk.
      apply elem_of_app. right. simpl. apply list_elem_of_here.
  - intros ->. exists l, []. split; [done|]. apply not_elem_of_nil.
Qed.

Lemma last_named_snoc_ne l k v k0 v0 :
  k ≠ k0 -> last_named (l ++ [(k0, v0)]) k v <-> last_named l k v.
Proof.
  intros Hne. split.
  - intros (pre & post & Heq & Hk).
    destruct post as [|y post _] using rev_ind.
    + apply app_inj_tail in Heq as [_ [= -> ->]]. done.
    + rewrite app_comm_cons, app_assoc in Heq.
      apply app_inj_tail in Heq as [-> <-].
      exists pre, post. split; [done|].
      rewrite fmap_app in Hk. by apply not_elem_of_app in Hk as [? _].
  - intros (pre & post & -> & Hk). exists pre, (post ++ [(k0, v0)]).
    split; [by rewrite <-app_assoc|].
    rewrite fmap_app. apply not_elem_of_app. split; [done|].
    simpl. apply not_elem_of_cons. split; [done|apply not_elem_of_nil].
Qed.

Lemma assign_all_snoc l k v :
  assign_all (l ++ [(k, v)]) = assign k v (assign_all l).
Proof. unfold assign_all. by rewrite foldl_snoc. Qed.

(** The object holds each key once, with the value assigned last;
    [__proto__] is never among its keys. *)
Lemma assign_all_spec l :
  NoDup (assign_all l).*1
  ∧ ∀ k v, (k, v) ∈ assign_all l <-> k ≠ "__proto__" ∧ last_named l k v.
Proof.
  induction l as [|[k0 v0] l [IHnd IH]] using rev_ind.
  - split; [constructor|]. intros k v. change (assign_all []) with (@nil (string * V)).
    split.
    + by intros ?%elem_of_nil.
    + by intros [_ ?%last_named_nil].
  - rewrite assign_all_snoc. split; [by apply assign_NoDup|].
    intros k v. rewrite elem_of_assign, IH by done.
    destruct (decide (k = k0)) as [->|Hne].
    + rewrite last_named_snoc_eq. naive_solver.
    + rewrite last_named_snoc_ne by done. naive_solver.
Qed.

(** With distinct keys, none an array index and none [__proto__], the
    object enumerates the pairs in the order of the list. *)
Lemma assign_all_in_order l :
  NoDup l.*1 ->
  Forall (fun k => array_index k = None ∧ k ≠ "__proto__") l.*1 ->
  assign_all l = l.
Proof.
  induction l as [|[k0 v0] l IH] using rev_ind; [done|].
  intros Hnd Hall. rewrite fmap_app in Hnd, Hall.
  apply Forall_app in Hall as [Hl Hk].
  apply Forall_inv in Hk as [Hi Hp]. cbn [fst] in Hi, Hp.
  apply NoDup_app in Hnd as (Hnd & Hdis & _).
  rewrite assign_all_snoc, IH by done. cbn [fst snd].
  unfold assign. rewrite bool_decide_eq_false_2 by done.
  apply define_last; [|done].
  intros Hin. apply (Hdis _ Hin). apply list_elem_of_here.
Qed.

Lemma last_named_filter (Q : string -> Prop) `{!∀ k, Decision (Q k)} l k v :
  last_named (filter (fun kv => Q kv.1) l) k v <-> Q k ∧ last_named l k v.
Proof.
  induction l as [|[k0 v0] l IH] using rev_ind.
  - split; [by intros ?%last_named_nil|by intros [_ ?%last_named_nil]].
  - rewrite filter_app, filter_cons, filter_nil. simpl.
    destruct (decide (Q k0)) as [HQ|HQ].
    + destruct (decide (k = k0)) as [->|Hne].
      * rewrite !last_named_snoc_eq. naive_solver.
      * rewrite !last_named_snoc_ne by done. done.
    + rewrite app_nil_r, IH. destruct (decide (k = k0)) as [->|Hne].
      * naive_solver.
      * by rewrite last_named_snoc_ne.
Qed.

End Pairs.

End AssignFacts.

(** ** The proxy forwarder *)

Module ProxyFacts.
Import Proxy Terms AssignFacts.

Lemma forwarded_headers_fold (hs : list (string * string)) (acc : record string) :
  foldl (fun headersObj kv =>
           let '(k, v) := kv in
           if bool_decide (k = EmptyString) then headersObj
           else
             let lower := toLowerCase k in
             if bool_decide (lower ∈ ["host"; "connection"; "content-length"])
             then headersObj
             else Obj.assign k v headersObj) acc hs
  = foldl (fun o kv => Obj.assign kv.1 kv.2 o) acc
      (filter (fun kv => kv.1 ≠ EmptyString ∧ ¬ stripped kv.1) hs).
Proof.
  revert acc. induction hs as [|[k v] hs IH]; intros acc; [done|].
  rewrite filter_cons. cbn [foldl fst]. unfold stripped at 1.
  case_bool_decide as Hk.
  - rewrite decide_False by naive_solver. apply IH.
  - case_bool_decide as Hs.
    + rewrite decide_False by naive_solver. apply IH.
    + rewrite decide_True by done. cbn [foldl fst snd]. apply IH.
Qed.

Lemma forwarded_headers_assign_all (hs : list (string * string)) :
  forwarded_headers hs
  = assign_all (filter (fun kv => kv.1 ≠ EmptyString ∧ ¬ stripped kv.1) hs).
Proof. apply forwarded_headers_fold. Qed.

Lemma forwarded_headers_spec (hs : list (string * string)) :
  NoDup (forwarded_headers hs).*1
  ∧ ∀ k v, (k, v) ∈ forwarded_headers hs <-> forwardable k ∧ last_named hs k v.
Proof.
  rewrite forwarded_headers_assign_all.
  destruct (assign_all_spec
              (filter (fun kv : string * string =>
                         kv.1 ≠ EmptyString ∧ ¬ stripped kv.1) hs)) as [Hnd Hin].
  split; [done|]. intros k v. rewrite Hin.
  pose proof (last_named_filter
                (fun k => k ≠ EmptyString ∧ ¬ stripped k) hs k v) as Hf.
  cbn beta in Hf. rewrite Hf. unfold forwardable. naive_solver.
Qed.

Lemma last_named_NoDup {V} (l : list (string * V)) k v :
  NoDup l.*1 -> last_named l k v <-> (k, v) ∈ l.
Proof.
  intros Hnd. split.
  - intros (pre & post & -> & _). apply elem_of_app. right. apply list_elem_of_here.
  - intros (pre & post & ->)%list_elem_of_split. exists pre, post. split; [done|].
    rewrite fmap_app, fmap_cons in Hnd. apply NoDup_app in Hnd as (_ & _ & Hnd).
    by apply NoDup_cons in Hnd as [? _].
Qed.

(** C3, as stated, fails: of two supplied [Accept] headers the first is
    not named [host], [connection] or [content-length], and is not in the
    forwarded set. *)
Lemma forwarded_headers_drop_repeated_name :
  ("Accept", "text/plain") ∈ repeated_header
  ∧ ¬ stripped "Accept"
  ∧ ("Accept", "text/plain") ∉ forwarded_headers repeated_header.
Proof.
  split_and!.
  - apply list_elem_of_here.
  - unfold stripped. by apply (bool_decide_unpack _).
  - by apply (bool_decide_unpack _).
Qed.

(** C3, amended. The forwarded header set holds each name at most once. A
    header is in it exactly when its name is not empty, is not [host],
    [connection] or [content-length] in any letter case, is not
    [__proto__], and it is the last supplied header of that name; name and
    value are unchanged. Hence, when the supplied names are distinct, not
    empty and not [__proto__], the set omits exactly the headers named
    [host], [connection] or [content-length] and contains every other
    supplied header. *)
Theorem forwarded_headers_strip_and_keep_last (hs : list (string * string)) :
  NoDup (forwarded_headers hs).*1
  ∧ (∀ k v, (k, v) ∈ forwarded_headers hs <-> forwardable k ∧ last_named hs k v)
  ∧ (NoDup hs.*1 ->
     Forall (fun k => k ≠ EmptyString ∧ k ≠ "__proto__") hs.*1 ->
     ∀ k v, (k, v) ∈ forwarded_headers hs <-> (k, v) ∈ hs ∧ ¬ stripped k).
Proof.
  destruct (forwarded_headers_spec hs) as [Hnd Hin]. split_and!; [done..|].
  intros Hhs Hall k v. rewrite Hin, last_named_NoDup by done.
  unfold forwardable, stripped. split; [naive_solver|].
  intros [Hkv Hs]. split; [|done].
  eapply Forall_forall in Hall; [|apply list_elem_of_fmap; by exists (k, v)].
  naive_solver.
Qed.

(** Of five headers with distinct names the three connection-level ones
    are stripped, whatever their letter case, and the other two kept. *)
Lemma forwarded_headers_strip_and_keep_last_witness :
  ("CONTENT-LENGTH", "7") ∈ forwarded_headers replayed_headers
  <-> ("CONTENT-LENGTH", "7") ∈ replayed_headers ∧ ¬ stripped "CONTENT-LENGTH".
Proof.
  apply (proj2 (proj2 (forwarded_headers_strip_and_keep_last replayed_headers))).
  - by apply (bool_decide_unpack _).
  - by apply (bool_decide_unpack _).
Defined.

Example replayed_headers_forwarded :
  forwarded_headers replayed_headers = [("X-Trace", "1"); ("Accept", "text/html")].
Proof. reflexivity. Qed.

Section Handler.
Context `{Platform}.


(** What the forwarder passes to [fetch] as body for GET and HEAD. *)
Lemma post_GET_HEAD_without_body (origin : option string) (payload : ProxyBody)
    (m : string) :
  method payload = Some m -> toUpperCase m ∈ ["GET"; "HEAD"] ->
  Forall (fun call => fetch_body call = None) (post origin (Ok payload)).2.
Proof.
  intros Hm Hget. unfold post. rewrite Hm. cbn [default].
  rewrite (bool_decide_eq_true_2 _ Hget).
  destruct (negb (truthy (url payload)) || negb (truthy (Some m)));
    [by constructor|].
  destruct (URL_parse _) as [u|]; [|by constructor].
  case_bool_decide; [by constructor|].
  destruct (fetch _); by repeat constructor.
Qed.

End Handler.


End ProxyFacts.

(** ** Strings *)

Module StringFacts.
Import Terms.

Lemma chars_of_chars (l : list ascii) : chars (of_chars l) = l.
Proof. apply list_ascii_of_string_of_list_ascii. Qed.

Lemma of_chars_chars (s : string) : of_chars (chars s) = s.
Proof. apply string_of_list_ascii_of_string. Qed.

Lemma chars_inj (s t : string) : chars s = chars t -> s = t.
Proof. intros Heq. by rewrite <-(of_chars_chars s), Heq, of_chars_chars. Qed.

Lemma chars_app (s t : string) : chars (s +:+ t) = chars s ++ chars t.
Proof. induction s as [|c s IH]; [done|]. simpl. by rewrite IH. Qed.

(** What [drop_space] returns does not start with a one-byte space. *)
Lemma drop_space_head (fwd : bool) (l : list ascii) (c : ascii) (r : list ascii) :
  drop_space fwd l = c :: r -> is_space1 c = false.
Proof.
  remember (length l) as n eqn:Hn. revert l Hn.
  induction n as [n IH] using lt_wf_ind. intros l Hn.
  destruct l as [|a r1]; [done|]. cbn [drop_space].
  destruct (is_space1 a) eqn:Ha.
  { apply (IH (length r1)); [simpl in Hn; lia|done]. }
  destruct r1 as [|b r2]; [by intros [= <- <-]|].
  destruct (if fwd then is_space2 a b else is_space2 b a).
  { apply (IH (length r2)); [simpl in Hn; lia|done]. }
  destruct r2 as [|d r3]; [by intros [= <- <-]|].
  destruct (if fwd then is_space3 a b d else is_space3 d b a).
  { apply (IH (length r3)); [simpl in Hn; lia|done]. }
  by intros [= <- <-].
Qed.

Lemma drop_space_suffix (fwd : bool) (l : list ascii) :
  drop_space fwd l `suffix_of` l.
Proof.
  remember (length l) as n eqn:Hn. revert l Hn.
  induction n as [n IH] using lt_wf_ind. intros l Hn.
  destruct l as [|a r1]; [done|]. cbn [drop_space].
  destruct (is_space1 a).
  { apply suffix_cons_r, (IH (length r1)); [simpl in Hn; lia|done]. }
  destruct r1 as [|b r2]; [done|].
  destruct (if fwd then is_space2 a b else is_space2 b a).
  { do 2 apply suffix_cons_r. apply (IH (length r2)); [simpl in Hn; lia|done]. }
  destruct r2 as [|d r3]; [done|].
  destruct (if fwd then is_space3 a b d else is_space3 d b a); [|done].
  do 3 apply suffix_cons_r. apply (IH (length r3)); [simpl in Hn; lia|done].
Qed.

Lemma chars_trim (s : string) :
  chars (trim s) = rev (drop_space false (rev (drop_space true (chars s)))).
Proof. unfold trim, trimEnd, trimStart. by rewrite !chars_of_chars. Qed.

(** A trimmed text neither starts nor ends with a one-byte space. *)
Lemma trim_first (s : string) (c : ascii) (r : list ascii) :
  chars (trim s) = c :: r -> is_space1 c = false.
Proof.
  rewrite chars_trim. intros Heq.
  destruct (drop_space_suffix false (rev (drop_space true (chars s)))) as [k Hk].
  apply (f_equal (@rev ascii)) in Hk.
  rewrite rev_involutive, rev_app_distr, Heq in Hk.
  eapply drop_space_head. simpl in Hk. exact Hk.
Qed.

Lemma trim_last (s : string) (l : list ascii) (c : ascii) :
  chars (trim s) = l ++ [c] -> is_space1 c = false.
Proof.
  rewrite chars_trim. intros Heq.
  apply (f_equal (@rev ascii)) in Heq.
  rewrite rev_involutive, rev_unit in Heq.
  eapply drop_space_head. exact Heq.
Qed.

Lemma whitespace_is_space1 (c : ascii) :
  Json.whitespace c = true -> is_space1 c = true.
Proof.
  unfold Json.whitespace, is_space1, in_range.
  intros Hc%bool_decide_eq_true. set (n := code c) in *.
  repeat (apply elem_of_cons in Hc as [->|Hc]; [done|]).
  by apply elem_of_nil in Hc.
Qed.

(** A trimmed text that reads as a JSON object starts with the opening
    brace and ends with the closing one. *)
Lemma trimmed_object_text (s : string) :
  object_text (trim s) ->
  trim s ≠ EmptyString
  ∧ startsWith "{" (trim s) = true ∧ endsWith "}" (trim s) = true.
Proof.
  intros (a & mid & b & Heq & Ha & Hb).
  assert (a = []) as ->.
  { destruct a as [|c a]; [done|]. apply Forall_cons in Ha as [Hc _].
    apply whitespace_is_space1 in Hc. apply trim_first in Heq. congruence. }
  assert (b = []) as ->.
  { destruct b as [|c b _] using rev_ind; [done|].
    apply Forall_app in Hb as [_ Hc]. apply Forall_inv in Hc.
    apply whitespace_is_space1 in Hc.
    rewrite !app_assoc in Heq. apply trim_last in Heq. congruence. }
  split_and!.
  - intros Hs. by rewrite Hs in Heq.
  - unfold startsWith. apply bool_decide_eq_true. rewrite Heq.
    by eexists.
  - unfold endsWith. apply bool_decide_eq_true. rewrite Heq.
    exists (chars "{" ++ mid). by rewrite app_nil_r, app_assoc.
Qed.

End StringFacts.

(** ** The reference JSON reader *)

Module ReferenceFacts.
Import Terms StringFacts Reference.

Lemma code_inj (c d : ascii) : code c = code d -> c = d.
Proof.
  unfold code. intros Heq%(inj Z.of_N).
  by rewrite <-(ascii_N_embedding c), Heq, ascii_N_embedding.
Qed.

Lemma code_eqb (c : ascii) (n : Z) : (code c =? n)%Z = true -> c = char n.
Proof.
  intros Heq%Z.eqb_eq. apply code_inj. rewrite Heq. unfold code, char.
  rewrite <-Heq. unfold code. by rewrite N2Z.id, ascii_N_embedding.
Qed.

Lemma skip_ws_split (l : list ascii) :
  ∃ a, l = a ++ skip_ws l ∧ Forall (fun c => Json.whitespace c = true) a.
Proof.
  induction l as [|c l (a & Heq & Ha)]; [by exists []|]. simpl.
  destruct (Json.whitespace c) eqn:Hc.
  - exists (c :: a). split; [by rewrite Heq at 1|by constructor].
  - by exists [].
Qed.

Lemma skip_ws_suffix (l : list ascii) : skip_ws l `suffix_of` l.
Proof. destruct (skip_ws_split l) as (a & Heq & _). by exists a. Qed.

Lemma skip_ws_nil (l : list ascii) :
  skip_ws l = [] -> Forall (fun c => Json.whitespace c = true) l.
Proof.
  destruct (skip_ws_split l) as (a & Heq & Ha). intros Hnil.
  rewrite Hnil, app_nil_r in Heq. by subst.
Qed.

Lemma suffix_skip_ws (l r : list ascii) (c : ascii) :
  skip_ws l = c :: r -> r `suffix_of` l.
Proof.
  intros Heq. etrans; [|apply skip_ws_suffix]. rewrite Heq. by apply suffix_cons_r.
Qed.

Lemma parse_string_suffix (l acc : list ascii) (s : string) (rest : list ascii) :
  parse_string l acc = Some (s, rest) -> rest `suffix_of` l.
Proof.
  remember (length l) as n eqn:Hn. revert l acc Hn.
  induction n as [n IH] using lt_wf_ind. intros l acc Hn.
  destruct l as [|c r]; [done|]. cbn [parse_string].
  destruct (code c =? 34)%Z.
  { intros [= _ <-]. by apply suffix_cons_r. }
  destruct (code c =? 92)%Z.
  { destruct r as [|e r']; [done|]. destruct (unescape e); [|done].
    intros Hp. do 2 apply suffix_cons_r.
    eapply (IH (length r')); [simpl in Hn; lia|done|exact Hp]. }
  destruct (code c <? 32)%Z; [done|].
  intros Hp. apply suffix_cons_r.
  eapply (IH (length r)); [simpl in Hn; lia|done|exact Hp].
Qed.

Lemma take_digits_app (l : list ascii) :
  l = (take_digits l).1 ++ (take_digits l).2.
Proof.
  induction l as [|c l IH]; [done|]. simpl.
  destruct (is_digit c); [|done].
  destruct (take_digits l) as [ds rest]. simpl in *. by rewrite <-IH.
Qed.

Lemma parse_number_suffix (l : list ascii) (repr : string) (rest : list ascii) :
  parse_number l = Some (repr, rest) -> rest `suffix_of` l.
Proof.
  unfold parse_number.
  set (split := match l with
                | c :: r => if (code c =? 45)%Z then (true, r) else (false, l)
                | [] => (false, l)
                end).
  assert (split.2 `suffix_of` l) as Hs.
  { subst split. destruct l as [|c r]; [done|].
    destruct (code c =? 45)%Z; [by apply suffix_cons_r|done]. }
  destruct split as [neg l1]. simpl in Hs.
  pose proof (take_digits_app l1) as Hd.
  destruct (take_digits l1) as [ds rest']. simpl in Hd.
  assert (rest' `suffix_of` l) as Hr.
  { etrans; [|exact Hs]. by exists ds. }
  destruct ds as [|d ds']; [done|].
  repeat case_match; intros [= _ <-]; done.
Qed.

Lemma literal_inv (word : string) (v v' : jsval) (l rest : list ascii) :
  literal word v l = Some (v', rest) -> v' = v ∧ rest `suffix_of` l.
Proof.
  unfold literal. case_bool_decide; [|done]. intros [= <- <-].
  split; [done|apply suffix_drop].
Qed.

(** What each reader leaves is a suffix of what it was given; behind the
    members of an object stands its closing brace. *)
Lemma parse_suffix (fuel : nat) :
  (∀ l v rest, parse_value fuel l = Some (v, rest) -> rest `suffix_of` l)
  ∧ (∀ l acc o rest,
       parse_members fuel l acc = Some (o, rest) -> (char 125 :: rest) `suffix_of` l)
  ∧ (∀ l acc items rest,
       parse_elements fuel l acc = Some (items, rest) -> rest `suffix_of` l).
Proof.
  induction fuel as [|f (IHv & IHm & IHe)]; [done|]. split_and!.
  - intros l v rest. cbn [parse_value].
    destruct (skip_ws l) as [|c r] eqn:Hl; [done|].
    pose proof (suffix_skip_ws _ _ _ Hl) as Hr.
    assert ((c :: r) `suffix_of` l) as Hcr.
    { rewrite <-Hl. apply skip_ws_suffix. }
    destruct (code c =? 123)%Z.
    { destruct (skip_ws r) as [|c' r'] eqn:Hr'; [done|].
      destruct (code c' =? 125)%Z.
      - intros [= _ <-]. etrans; [|exact Hr]. by eapply suffix_skip_ws.
      - destruct (parse_members f r []) as [[o rest']|] eqn:Hm; [|done].
        intros [= _ <-]. etrans; [|exact Hr].
        eapply suffix_cons_l. by eapply IHm. }
    destruct (code c =? 91)%Z.
    { destruct (skip_ws r) as [|c' r'] eqn:Hr'; [done|].
      destruct (code c' =? 93)%Z.
      - intros [= _ <-]. etrans; [|exact Hr]. by eapply suffix_skip_ws.
      - destruct (parse_elements f r []) as [[items rest']|] eqn:He; [|done].
        intros [= _ <-]. etrans; [|exact Hr]. by eapply IHe. }
    destruct (code c =? 34)%Z.
    { destruct (parse_string r []) as [[s rest']|] eqn:Hs; [|done].
      intros [= _ <-]. etrans; [|exact Hr]. by eapply parse_string_suffix. }
    destruct (code c =? 116)%Z.
    { intros [_ ?]%literal_inv. by etrans. }
    destruct (code c =? 102)%Z.
    { intros [_ ?]%literal_inv. by etrans. }
    destruct (code c =? 110)%Z.
    { intros [_ ?]%literal_inv. by etrans. }
    destruct (parse_number (c :: r)) as [[repr rest']|] eqn:Hn; [|done].
    intros [= _ <-]. etrans; [|exact Hcr]. by eapply parse_number_suffix.
  - intros l acc o rest. cbn [parse_members].
    destruct (skip_ws l) as [|q r] eqn:Hl; [done|].
    pose proof (suffix_skip_ws _ _ _ Hl) as Hr.
    destruct (code q =? 34)%Z; [|done].
    destruct (parse_string r []) as [[k r1]|] eqn:Hs; [|done]. cbn [mbind option_bind].
    apply parse_string_suffix in Hs.
    destruct (skip_ws r1) as [|colon r2] eqn:Hr1; [done|].
    apply suffix_skip_ws in Hr1.
    destruct (code colon =? 58)%Z; [|done].
    destruct (parse_value f r2) as [[v r3]|] eqn:Hv; [|done]. cbn [mbind option_bind].
    apply IHv in Hv.
    assert (r3 `suffix_of` l) as H3 by (by repeat (etrans; [eassumption|])).
    destruct (skip_ws r3) as [|c r4] eqn:Hr3; [done|].
    destruct (code c =? 44)%Z.
    { intros Hm%IHm. etrans; [exact Hm|]. etrans; [|exact H3].
      by eapply suffix_skip_ws. }
    destruct (code c =? 125)%Z eqn:Hc; [|done].
    intros [= _ <-]. apply code_eqb in Hc as ->. etrans; [|exact H3].
    rewrite <-Hr3. apply skip_ws_suffix.
  - intros l acc items rest. cbn [parse_elements].
    destruct (parse_value f l) as [[v r1]|] eqn:Hv; [|done]. cbn [mbind option_bind].
    apply IHv in Hv.
    destruct (skip_ws r1) as [|c r2] eqn:Hr1; [done|].
    apply suffix_skip_ws in Hr1.
    destruct (code c =? 44)%Z.
    { intros He%IHe. by repeat (etrans; [eassumption|]). }
    destruct (code c =? 93)%Z; [|done].
    intros [= _ <-]. by etrans.
Qed.

(** An object is read from an opening brace up to a closing brace. *)
Lemma parse_value_object (fuel : nat) (l : list ascii) (o : record jsval)
    (rest : list ascii) :
  parse_value fuel l = Some (VObj o, rest) ->
  ∃ mid, skip_ws l = char 123 :: mid ++ char 125 :: rest.
Proof.
  destruct fuel as [|f]; [done|]. cbn [parse_value].
  destruct (skip_ws l) as [|c r] eqn:Hl; [done|].
  destruct (code c =? 123)%Z eqn:Hc.
  { apply code_eqb in Hc as ->.
    destruct (skip_ws r) as [|c' r'] eqn:Hr'; [done|].
    destruct (code c' =? 125)%Z eqn:Hc'.
    - apply code_eqb in Hc' as ->. intros [= _ <-].
      destruct (skip_ws_split r) as (a & Heq & _). exists a.
      by rewrite Heq, Hr' at 1.
    - destruct (parse_members f r []) as [[o' rest']|] eqn:Hm; [|done].
      intros [= _ <-].
      apply (proj1 (proj2 (parse_suffix f))) in Hm as [mid ->]. by exists mid. }
  destruct (code c =? 91)%Z.
  { destruct (skip_ws r) as [|c' r'] eqn:Hr'; [done|].
    destruct (code c' =? 93)%Z; [done|].
    by destruct (parse_elements f r []) as [[items rest']|]. }
  destruct (code c =? 34)%Z.
  { by destruct (parse_string r []) as [[s rest']|]. }
  destruct (code c =? 116)%Z; [by intros [? _]%literal_inv|].
  destruct (code c =? 102)%Z; [by intros [? _]%literal_inv|].
  destruct (code c =? 110)%Z; [by intros [? _]%literal_inv|].
  by destruct (parse_number (c :: r)) as [[repr rest']|].
Qed.

(** The reference reader yields an object only for a text between
    braces. *)
Lemma JSON_parse_object_text (t : string) (o : record jsval) :
  JSON_parse t = Some (VObj o) -> object_text t.
Proof.
  unfold JSON_parse.
  destruct (parse_value _ (chars t)) as [[v rest]|] eqn:Hv; [|done]. cbn [mbind option_bind].
  case_bool_decide as Hrest; [|done]. intros [= ->].
  apply parse_value_object in Hv as [mid Hmid].
  destruct (skip_ws_split (chars t)) as (a & Heq & Ha).
  exists a, mid, rest. split_and!; [|done|by apply skip_ws_nil].
  by rewrite Heq, Hmid at 1.
Qed.

End ReferenceFacts.

(** ** Query strings *)

Module QueryFacts.
Import Playground Terms Obj ObjFacts AssignFacts.

Lemma toRecordFromActivePairs_fold (pairs : list Param) (acc : record jsval) :
  foldl (fun out p =>
           if bool_decide (name p = EmptyString) then out
           else if negb (active p) then out
           else assign (name p) (VStr (value p)) out) acc pairs
  = foldl (fun o kv => assign kv.1 kv.2 o) acc
      ((fun p => (name p, VStr (value p))) <$> kept pairs).
Proof.
  revert acc. unfold kept.
  induction pairs as [|p pairs IH]; intros acc; [done|].
  rewrite filter_cons. cbn [foldl].
  case_bool_decide as Hn.
  - rewrite decide_False by naive_solver. apply IH.
  - destruct (active p) eqn:Ha; cbn [negb].
    + rewrite decide_True by done. rewrite fmap_cons. cbn [foldl fst snd]. apply IH.
    + rewrite decide_False by naive_solver. apply IH.
Qed.

Lemma toRecordFromActivePairs_assign_all (pairs : list Param) :
  toRecordFromActivePairs pairs
  = assign_all ((fun p => (name p, VStr (value p))) <$> kept pairs).
Proof. apply toRecordFromActivePairs_fold. Qed.

Lemma keys_VStr (l : list (string * string)) : (prod_map id VStr <$> l).*1 = l.*1.
Proof. induction l as [|[k s] l IH]; [done|]. by rewrite !fmap_cons, IH. Qed.

Lemma pairs_VStr (l : list Param) :
  (fun p => (name p, VStr (value p))) <$> l
  = prod_map id VStr <$> ((fun p => (name p, value p)) <$> l).
Proof. induction l as [|p l IH]; [done|]. by rewrite !fmap_cons, IH. Qed.

Lemma keys_pairs (l : list Param) :
  ((fun p => (name p, VStr (value p))) <$> l).*1 = name <$> l.
Proof. induction l as [|p l IH]; [done|]. by rewrite !fmap_cons, IH. Qed.

Lemma texts_pairs (l : list Param) :
  (fun kv : string * string => kv.1 +:+ "=" +:+ encodeURIComponent kv.2)
    <$> ((fun p => (name p, value p)) <$> l)
  = pair_of <$> l.
Proof. induction l as [|p l IH]; [done|]. by rewrite !fmap_cons, IH. Qed.

Lemma last_named_fmap_VStr (l : list (string * string)) (k : string) (v : jsval) :
  last_named (prod_map id VStr <$> l) k v <-> ∃ s, v = VStr s ∧ last_named l k s.
Proof.
  split.
  - intros (pre & post & Heq & Hk).
    apply fmap_app_inv in Heq as (pre' & rest & -> & Hrest & ->).
    symmetry in Hrest. apply fmap_cons_inv in Hrest as ([k' s] & post' & [= -> ->] & -> & ->).
    exists s. split; [done|]. exists pre', post'. split; [done|].
    by rewrite keys_VStr in Hk.
  - intros (s & -> & pre & post & -> & Hk).
    exists (prod_map id VStr <$> pre), (prod_map id VStr <$> post).
    split; [by rewrite fmap_app|]. by rewrite keys_VStr.
Qed.

(** The pairs of a record whose values are all texts. *)
Lemma buildQueryString_texts (l : list (string * string)) :
  buildQueryString (prod_map id VStr <$> l)
  = join "&" ((fun kv => kv.1 +:+ "=" +:+ encodeURIComponent kv.2) <$> l).
Proof.
  unfold buildQueryString, entries. f_equal.
  induction l as [|[k s] l IH]; [done|].
  rewrite !fmap_cons. cbn [omap list_omap prod_map fst snd id]. by rewrite <-IH.
Qed.

Lemma buildQueryString_filter (o : record jsval) :
  buildQueryString o
  = join "&"
      ((fun kv => kv.1 +:+ "=" +:+ encodeURIComponent (serializeValue kv.2))
         <$> filter (fun kv => present kv.2 = true) o).
Proof.
  unfold buildQueryString, entries. f_equal.
  induction o as [|[k v] o IH]; [done|].
  rewrite filter_cons. cbn [omap list_omap fst snd].
  destruct v; cbn [fst snd present];
    first [ rewrite decide_False by done; exact IH
          | rewrite decide_True by done; rewrite fmap_cons; by rewrite <-IH ].
Qed.

Lemma toRecordFromActivePairs_in_order (pairs : list Param) :
  NoDup (name <$> kept pairs) -> Forall plain_name (name <$> kept pairs) ->
  buildQueryString (toRecordFromActivePairs pairs)
  = join "&" (pair_of <$> kept pairs).
Proof.
  intros Hnd Hplain. rewrite toRecordFromActivePairs_assign_all.
  rewrite assign_all_in_order.
  - by rewrite pairs_VStr, buildQueryString_texts, texts_pairs.
  - by rewrite keys_pairs.
  - by rewrite keys_pairs.
Qed.

(** C5, as stated, fails: an active entry named [1] after an active
    entry named [symbol] contributes the first pair, not the second. *)
Lemma buildQueryString_numbered_name_first :
  buildQueryString (toRecordFromActivePairs numbered_entry)
  ≠ spec_queryString numbered_entry.
Proof. vm_compute. discriminate. Qed.

Example numbered_entry_query_strings :
  buildQueryString (toRecordFromActivePairs numbered_entry) = "1=x&symbol=BTC"
  ∧ spec_queryString numbered_entry = "symbol=BTC&1=x".
Proof. split; reflexivity. Qed.

(** Of two active entries of one name the second alone contributes. *)
Example repeated_symbol_query_string :
  buildQueryString (toRecordFromActivePairs repeated_symbol) = "symbols=ETH".
Proof. reflexivity. Qed.

(** A null value is left out; arrays and objects go as JSON text. *)
Example structured_values_query_string :
  buildQueryString
    [("skipped", VNull); ("ids", VArr [VNum "1"; VNum "2"]);
     ("filter", VObj [("side", VStr "BUY")]); ("live", VBool true)]
  = "ids=%5B1%2C2%5D&filter=%7B%22side%22%3A%22BUY%22%7D&live=true".
Proof. reflexivity. Qed.

(** C5, amended. The record built from a list of entries holds one
    property per distinct name of its active entries with a name
    ([__proto__] apart), with the value of the last such entry. When these
    names are distinct and none is an array index or [__proto__], the
    query string is their [name=percent-encoded value] pairs joined by
    ampersands in sequence order, names not encoded. Of any record, the
    properties whose value is null or undefined are left out, and an array
    or object value is put as its JSON text before it is percent-encoded. *)
Theorem buildQueryString_of_active_pairs (pairs : list Param) :
  (∀ k v,
     (k, v) ∈ toRecordFromActivePairs pairs
     <-> k ≠ "__proto__"
         ∧ ∃ s, v = VStr s
                ∧ last_named ((fun p => (name p, value p)) <$> kept pairs) k s)
  ∧ (NoDup (name <$> kept pairs) -> Forall plain_name (name <$> kept pairs) ->
     buildQueryString (toRecordFromActivePairs pairs)
     = join "&" (pair_of <$> kept pairs))
  ∧ (∀ o : record jsval,
       buildQueryString o
       = join "&"
           ((fun kv => kv.1 +:+ "=" +:+ encodeURIComponent (serializeValue kv.2))
              <$> filter (fun kv => present kv.2 = true) o))
  ∧ (∀ v, serializeValue v
          = match v with
            | VArr _ | VObj _ => Json.stringify v
            | VStr s => s
            | VNum r => r
            | VBool b => if b then "true" else "false"
            | VNull | VUndefined => EmptyString
            end).
Proof.
  split_and!.
  - intros k v. rewrite toRecordFromActivePairs_assign_all.
    destruct (assign_all_spec
                ((fun p => (name p, VStr (value p))) <$> kept pairs)) as [_ ->].
    by rewrite pairs_VStr, last_named_fmap_VStr.
  - apply toRecordFromActivePairs_in_order.
  - apply buildQueryString_filter.
  - by intros [].
Qed.

(** Scenario A of the spec before signing, with an inactive entry and an
    entry without a name: only [symbol] and [limit] contribute. *)
Lemma buildQueryString_of_active_pairs_witness :
  buildQueryString (toRecordFromActivePairs order_query)
  = "symbol=BTCUSDT&limit=10%20".
Proof.
  apply (proj1 (proj2 (buildQueryString_of_active_pairs order_query))).
  - by apply (bool_decide_unpack _).
  - by apply (bool_decide_unpack _).
Defined.

End QueryFacts.

(** ** The submission: preconditions and the body of GET and HEAD *)

Module SubmissionFacts.
Import Playground Terms.

Lemma getHeaderValue_absent (hs : list Param) (n : string) :
  Forall (fun h => name h = n -> active h = true -> trim (value h) = EmptyString) hs ->
  getHeaderValue hs n = EmptyString.
Proof.
  intros Hall. unfold getHeaderValue, find_.
  destruct (list_find (fun x => name x = n) hs) as [[i h]|] eqn:Hf; [|done].
  apply list_find_Some in Hf as (Hi & Hn & _). cbn.
  destruct (active h) eqn:Ha; [|done].
  eapply Forall_lookup_1 in Hall; [|exact Hi]. by apply Hall.
Qed.

Section Submission.
Context `{Platform} (props : Props).

Lemma sign_without_secret (now : N) (data : PlaygroundForm (list Param)) :
  trim (default EmptyString (apiSecret data)) = EmptyString ->
  sign props now data
  = Throw (new_Error "API Secret is required for signed endpoints.").
Proof. intros Hs. unfold sign. by rewrite Hs. Qed.

Lemma sign_without_key (now : N) (data : PlaygroundForm (list Param)) :
  trim (default EmptyString (apiSecret data)) ≠ EmptyString ->
  getHeaderValue (headers data) (apiKeyHeaderName props) = EmptyString ->
  sign props now data = Throw (new_Error (missing_header_message props)).
Proof.
  intros Hs Hk. unfold sign.
  rewrite bool_decide_eq_false_2 by done. by rewrite Hk.
Qed.

Lemma sign_ok (now : N) (data : PlaygroundForm (list Param)) :
  trim (default EmptyString (apiSecret data)) ≠ EmptyString ->
  getHeaderValue (headers data) (apiKeyHeaderName props) ≠ EmptyString ->
  sign props now data
  = let live := upsertActiveParam (queryParams data) "timestamp" (decimal now) in
    Ok (with_queryParams data
          (upsertActiveParam live "signature"
             (hmacSha256Hex (trim (default EmptyString (apiSecret data)))
                (toSign live (bodyMode data) (body data))))).
Proof.
  intros Hs Hk. unfold sign. by rewrite !bool_decide_eq_false_2 by done.
Qed.

(** C4. On a signed operation the secret is checked first: when it trims
    to nothing the submission throws the error that names the API Secret,
    whatever the headers hold. Otherwise, when no active header of the
    designated name has a value that trims to something, it throws the
    error that names that header. Either way no call of the proxy is
    made. *)
Theorem signing_preconditions_in_order (now : N)
    (data : PlaygroundForm (list Param)) :
  isSigned props = true ->
  (trim (default EmptyString (apiSecret data)) = EmptyString ->
   mutationFn props now data
   = Threw (new_Error "API Secret is required for signed endpoints.")
   ∧ network_calls (mutationFn props now data) = [])
  ∧ (trim (default EmptyString (apiSecret data)) ≠ EmptyString ->
     Forall (fun h => name h = apiKeyHeaderName props -> active h = true ->
                      trim (value h) = EmptyString) (headers data) ->
     mutationFn props now data
     = Threw (new_Error
                ("Missing " +:+ apiKeyHeaderName props
                   +:+ " header. Enable it in Headers and provide your API key."))
     ∧ network_calls (mutationFn props now data) = []).
Proof.
  intros Hsigned. unfold mutationFn. rewrite Hsigned. split.
  - intros Hs. by rewrite sign_without_secret.
  - intros Hs Hh. rewrite sign_without_key; [done..|].
    by apply getHeaderValue_absent.
Qed.

Lemma send_GET_HEAD_without_body (signedData : PlaygroundForm (list Param))
    (env : ProxyEnvelope) :
  is_GET_or_HEAD (method props) = true ->
  send props signedData = Ok env -> env_body env = None.
Proof.
  intros Hget. unfold send. rewrite Hget.
  destruct (createUrl props signedData) as [finalUrl|]; [|done].
  cbn [mbind result_bind].
  destruct (Headers_entries _) as [hdrs|]; [|done].
  cbn [mbind result_bind].
  destruct (bodyMode signedData) as [[]|];
    (destruct (catch_remap _) as [hs|]; [|done]);
    by intros [= <-].
Qed.

End Submission.

(** C8. When the method is GET or HEAD in any letter case, every
    envelope the submission posts to the proxy has no body, whatever the
    form holds; and the forwarder passes no body to the upstream call,
    whatever body the envelope it received holds. *)
Theorem GET_HEAD_forward_no_body `{Platform} `{Proxy.Platform}
    (props : Props) (now : N) (data : PlaygroundForm (list Param))
    (origin : option string) (payload : Proxy.ProxyBody) :
  (toUpperCase (method props) ∈ ["GET"; "HEAD"] ->
   Forall (fun env => env_body env = None)
          (network_calls (mutationFn props now data)))
  ∧ (∀ m, Proxy.method payload = Some m -> toUpperCase m ∈ ["GET"; "HEAD"] ->
     Forall (fun call => Proxy.fetch_body call = None)
            (Proxy.post origin (Ok payload)).2).
Proof.
  split.
  - intros Hget. unfold mutationFn.
    destruct ((if isSigned props then sign props now data else Ok data)
                ≫= send props) as [env|e] eqn:Hsend; [|by constructor].
    repeat constructor.
    destruct (if isSigned props then sign props now data else Ok data)
      as [d|]; [|done].
    eapply send_GET_HEAD_without_body; [|exact Hsend].
    unfold is_GET_or_HEAD. by apply bool_decide_eq_true.
  - intros m. apply ProxyFacts.post_GET_HEAD_without_body.
Qed.

(** Scenario B of the spec: a signed operation and an empty secret. *)
Lemma signing_preconditions_in_order_witness :
  @mutationFn Reference.browser signed_post 1700000000000
     (order_form EmptyString [symbol_BTCUSDT] EmptyString)
  = Threw (new_Error "API Secret is required for signed endpoints.")
  ∧ network_calls
      (@mutationFn Reference.browser signed_post 1700000000000
         (order_form EmptyString [symbol_BTCUSDT] EmptyString)) = [].
Proof.
  apply (proj1 (@signing_preconditions_in_order Reference.browser signed_post
                  1700000000000
                  (order_form EmptyString [symbol_BTCUSDT] EmptyString) eq_refl)).
  reflexivity.
Defined.

(** A GET typed in lower case with a body in the form is posted without
    it, and a HEAD envelope that holds a body is forwarded without it. *)
Lemma GET_HEAD_forward_no_body_witness :
  Forall (fun env => env_body env = None)
    (network_calls
       (@mutationFn Reference.browser plain_get 0
          (order_form "s3cr3t" [symbol_BTCUSDT] "ignored")))
  ∧ Forall (fun call => Proxy.fetch_body call = None)
      (@Proxy.post Reference.server None (Ok head_with_body)).2.
Proof.
  pose proof (@GET_HEAD_forward_no_body Reference.browser Reference.server
                plain_get 0 (order_form "s3cr3t" [symbol_BTCUSDT] "ignored")
                None head_with_body) as [Hsend Hpost].
  split.
  - apply Hsend. by apply (bool_decide_unpack _).
  - apply (Hpost "head"); [reflexivity|by apply (bool_decide_unpack _)].
Defined.

Example plain_get_is_posted :
  network_calls
    (@mutationFn Reference.browser plain_get 0
       (order_form "s3cr3t" [symbol_BTCUSDT] "ignored"))
  = [ {| env_method := "GET";
         env_url := "https://api.example.com/orders?symbol=BTCUSDT";
         env_headers := [("x-mbx-apikey", "key")];
         env_body := None |} ].
Proof. reflexivity. Qed.

Example head_with_body_is_forwarded :
  (@Proxy.post Reference.server None (Ok head_with_body)).2
  = [ {| Proxy.fetch_url := "https://api.example.com/orders";
         Proxy.fetch_method := "HEAD";
         Proxy.fetch_headers := [("X-Trace", "1")];
         Proxy.fetch_body := None |} ].
Proof. reflexivity. Qed.

End SubmissionFacts.

(** ** The signature *)

Module SigningFacts.
Import Playground Terms StringFacts QueryFacts Upsert SubmissionFacts.

Lemma join_components_empty_r (q : string) : join_components q EmptyString = q.
Proof.
  unfold join_components. rewrite filter_cons.
  destruct (decide (q ≠ EmptyString)) as [Hq|Hq].
  - rewrite filter_cons, decide_False by naive_solver. done.
  - rewrite filter_cons, decide_False by naive_solver.
    destruct (decide (q = EmptyString)) as [->|]; done.
Qed.

Lemma signed_entries_app (l1 l2 : list Param) :
  signed_entries (l1 ++ l2) = signed_entries l1 ++ signed_entries l2.
Proof. unfold signed_entries, kept. by rewrite !filter_app. Qed.

Lemma signed_entries_timestamp (p : Param) (l : list Param) :
  name p = "timestamp" -> active p = true ->
  signed_entries (p :: l) = p :: signed_entries l.
Proof.
  intros Hn Ha. unfold signed_entries, kept.
  rewrite filter_cons, decide_True by (by rewrite Hn).
  by rewrite filter_cons, decide_True by (by rewrite Hn, Ha).
Qed.

Section Signing.
Context `{Platform}.

(** Where the platform reads an object, the text lies between braces. *)
Hypothesis JSON_parse_object :
  ∀ t o, JSON_parse t = Some (VObj o) -> object_text t.

Lemma tryParseJsonObject_iff (body' : string) (o : record jsval) :
  tryParseJsonObject body' = Some o <-> JSON_parse (trim body') = Some (VObj o).
Proof.
  unfold tryParseJsonObject. split.
  - case_bool_decide; [done|]. destruct (negb _); [done|].
    destruct (JSON_parse (trim body')) as [[]|]; naive_solver.
  - intros Hp. pose proof (JSON_parse_object _ _ Hp) as Ht.
    apply trimmed_object_text in Ht as (Hne & -> & ->).
    rewrite bool_decide_eq_false_2 by done. cbn [andb negb]. by rewrite Hp.
Qed.


End Signing.

Section Signature.
Context `{Platform} (props : Props).


End Signature.


(** The texts of the two sides of that inequality. *)
Example stale_timestamp_signed_text :
  @toSign Reference.browser
    (upsertActiveParam stale_timestamp "timestamp" "1700000000000")
    (Some ModeText) EmptyString
  = "timestamp=1700000000000&symbol=BTCUSDT"
  ∧ join_components (claimed_query stale_timestamp 1700000000000) EmptyString
    = "symbol=BTCUSDT&timestamp=1700000000000".
Proof. split; vm_compute; reflexivity. Qed.



End SigningFacts.

(** ** The submission on the store: the form state is left alone *)

Module StoreFacts.
Import Playground Terms.

Lemma alloc_fresh (c : cell) (σ : store) : σ !! (alloc c σ).1 = None.
Proof. apply not_elem_of_dom. unfold alloc. cbn. apply is_fresh. Qed.

Lemma alloc_subseteq (c : cell) (σ : store) : σ ⊆ (alloc c σ).2.
Proof. unfold alloc. cbn. apply insert_subseteq, (alloc_fresh c σ). Qed.

(** A write to a location outside [σ0] and a new cell leave [σ0] as it is. *)
Lemma write_new_frame (σ0 σ : store) (a : loc) (c c' : cell) :
  σ0 ⊆ σ -> σ0 !! a = None ->
  σ0 ⊆ <[a := c']> (alloc c σ).2.
Proof.
  intros Hsub Ha. apply insert_subseteq_r; [done|].
  etrans; [exact Hsub|apply alloc_subseteq].
Qed.

Lemma upsertActiveParam_store_frame (σ0 σ : store) (a : loc) (n v : string) :
  σ0 ⊆ σ -> σ0 !! a = None -> σ0 ⊆ upsertActiveParam_store a n v σ.
Proof.
  intros Hsub Ha. unfold upsertActiveParam_store.
  destruct (findIndex _ _) as [idx|].
  - destruct (_ ≫= _) as [p|]; [|done].
    destruct (alloc _ σ) as [l σ'] eqn:Hal.
    replace σ' with (alloc (ObjCell {| name := name p; value := v;
                                      active := true; enum := enum p |}) σ).2
      by (by rewrite Hal).
    by apply write_new_frame.
  - destruct (alloc _ σ) as [l σ'] eqn:Hal.
    replace σ' with (alloc (ObjCell {| name := n; value := v;
                                      active := true; enum := Some [] |}) σ).2
      by (by rewrite Hal).
    by apply write_new_frame.
Qed.

Section Frame.
Context `{Platform} (props : Props).

Lemma sign_store_frame (σ0 σ : store) (now : N) (signedData : PlaygroundForm loc) :
  σ0 ⊆ σ -> σ0 !! queryParams signedData = None ->
  σ0 ⊆ (sign_store props now signedData σ).2.
Proof.
  intros Hsub Hq. unfold sign_store.
  case_bool_decide; [done|]. case_bool_decide; [done|]. cbn [snd].
  apply upsertActiveParam_store_frame; [|done].
  by apply upsertActiveParam_store_frame.
Qed.

Lemma mutationFn_store_frame (now : N) (data : PlaygroundForm loc) (σ : store) :
  σ ⊆ (mutationFn_store props now data σ).2.
Proof.
  unfold mutationFn_store.
  destruct (alloc (ArrCell (elems_at σ (queryParams data))) σ) as [qa σ1] eqn:H1.
  destruct (alloc (ArrCell (elems_at σ1 (headers data))) σ1) as [ha σ2] eqn:H2.
  assert (σ !! qa = None) as Hqa.
  { replace qa with (alloc (ArrCell (elems_at σ (queryParams data))) σ).1
      by (by rewrite H1). apply alloc_fresh. }
  assert (σ ⊆ σ2) as Hsub.
  { etrans; [apply (alloc_subseteq (ArrCell (elems_at σ (queryParams data))))|].
    rewrite H1. cbn [snd].
    replace σ2 with (alloc (ArrCell (elems_at σ1 (headers data))) σ1).2
      by (by rewrite H2). apply alloc_subseteq. }
  destruct (isSigned props).
  - pose proof (sign_store_frame σ σ2 now
                  {| apiSecret := apiSecret data; body := body data;
                     bodyMode := bodyMode data; file := file data;
                     multipartFormFields := multipartFormFields data;
                     queryParams := qa; pathParams := pathParams data;
                     headers := ha; identity := identity data |} Hsub Hqa) as Hf.
    by destruct (sign_store _ _ _ _) as [r σ3].
  - done.
Qed.

End Frame.

Lemma param_at_weaken (σ σ' : store) (l : loc) :
  σ ⊆ σ' -> is_Some (param_at σ l) -> param_at σ' l = param_at σ l.
Proof.
  intros Hsub [p Hp]. unfold param_at in *.
  destruct (σ !! l) as [c|] eqn:Hl; [|done].
  by rewrite (lookup_weaken _ _ _ _ Hl Hsub).
Qed.

Lemma read_params_weaken (σ σ' : store) (a : loc) :
  σ ⊆ σ' -> array_in_store σ a -> read_params σ' a = read_params σ a.
Proof.
  intros Hsub (els & Ha & Hels). unfold read_params, elems_at.
  rewrite (lookup_weaken _ _ _ _ Ha Hsub), Ha. clear Ha.
  induction Hels as [|l els Hl _ IH]; [done|].
  cbn [omap list_omap]. by rewrite (param_at_weaken σ σ' l Hsub Hl), IH.
Qed.

(** C9. Whatever the submission does (signed or not, thrown or posted),
    every cell of the store it was given is afterwards what it was: the
    arrays of the form state, the entries they hold, and all else. The
    form state therefore reads the same before and after. *)
Theorem form_state_never_mutated `{Platform} (props : Props) (now : N)
    (data : PlaygroundForm loc) (σ : store) :
  σ ⊆ (mutationFn_store props now data σ).2
  ∧ (form_in_store σ data ->
     read_form (mutationFn_store props now data σ).2 data = read_form σ data).
Proof.
  pose proof (mutationFn_store_frame props now data σ) as Hsub.
  split; [done|]. intros [Hq Hh]. unfold read_form.
  by rewrite !(read_params_weaken σ _ _ Hsub).
Qed.

(** Scenario A on the store: the array of the form still holds the one
    entry [symbol], while the copy the submission signed holds three. *)
Lemma form_state_never_mutated_witness :
  read_form
    (@mutationFn_store Reference.browser signed_post 1700000000000
       sample_form_ref sample_store).2 sample_form_ref
  = read_form sample_store sample_form_ref.
Proof.
  apply (@form_state_never_mutated Reference.browser signed_post 1700000000000
           sample_form_ref sample_store).
  split.
  - exists [1%positive]. split; [reflexivity|]. repeat constructor. by eexists.
  - exists [2%positive]. split; [reflexivity|]. repeat constructor. by eexists.
Defined.

(** *** The store and the lists tell the same story *)

Lemma array_in_store_holds (σ : store) (a : loc) :
  array_in_store σ a -> holds σ a (read_params σ a).
Proof.
  intros (els & Ha & Hels). exists els. split; [done|].
  unfold read_params, elems_at. rewrite Ha. clear Ha.
  induction Hels as [|l els [p Hp] _ IH]; [constructor|].
  cbn [omap list_omap]. rewrite Hp. by constructor.
Qed.

Lemma holds_read (σ : store) (a : loc) (ps : list Param) :
  holds σ a ps -> read_params σ a = ps.
Proof.
  intros (els & Ha & Hels). unfold read_params, elems_at. rewrite Ha. clear Ha.
  induction Hels as [|l p els ps Hp _ IH]; [done|].
  cbn [omap list_omap]. by rewrite Hp, IH.
Qed.

Lemma findIndex_store (σ : store) (n : string) (els : list loc) (ps : list Param) :
  Forall2 (fun l p => param_at σ l = Some p) els ps ->
  findIndex (fun l => name <$> param_at σ l = Some n) els
  = findIndex (fun p => name p = n) ps.
Proof.
  unfold findIndex. induction 1 as [|l p els ps Hp _ IH]; [done|].
  cbn [list_find]. rewrite Hp. cbn [fmap option_fmap option_map].
  destruct (decide (Some (name p) = Some n)) as [Hn|Hn];
    destruct (decide (name p = n)) as [Hn'|Hn']; try done; try congruence.
  assert (∀ B (o : option (nat * B)),
            fst <$> (prod_map S id <$> o) = S <$> (fst <$> o)) as Hshift
    by (by intros B [[]|]).
  by rewrite !Hshift, IH.
Qed.

(** What a new cell and a write to the array at [a] leave alone. *)
Lemma param_at_write_new (σ : store) (a l : loc) (c c' : cell) (els : list loc)
    (p : Param) :
  σ !! a = Some (ArrCell els) -> param_at σ l = Some p ->
  param_at (<[a := c']> (alloc c σ).2) l = Some p.
Proof.
  intros Ha Hl. unfold param_at in *.
  destruct (σ !! l) as [cl|] eqn:Hcl; [|done].
  rewrite lookup_insert_ne by (intros ->; by rewrite Ha in Hcl; simplify_eq).
  by rewrite (lookup_weaken _ _ _ _ Hcl (alloc_subseteq c σ)).
Qed.

Lemma lookup_write_new (σ : store) (a a' : loc) (c c' : cell) :
  a' ≠ a -> is_Some (σ !! a') ->
  <[a := c']> (alloc c σ).2 !! a' = σ !! a'.
Proof.
  intros Hne [x Hx]. rewrite lookup_insert_ne by done.
  by rewrite (lookup_weaken _ _ _ _ Hx (alloc_subseteq c σ)).
Qed.

Lemma param_at_new (σ : store) (a : loc) (p : Param) (c' : cell) :
  is_Some (σ !! a) ->
  param_at (<[a := c']> (alloc (ObjCell p) σ).2) (alloc (ObjCell p) σ).1 = Some p.
Proof.
  intros [x Hx]. unfold param_at.
  rewrite lookup_insert_ne.
  - unfold alloc. cbn. by rewrite lookup_insert_eq.
  - intros Heq. pose proof (alloc_fresh (ObjCell p) σ) as Hf.
    rewrite <-Heq in Hf. congruence.
Qed.

Lemma upsertActiveParam_store_holds (σ : store) (a : loc) (ps : list Param)
    (n v : string) :
  holds σ a ps ->
  holds (upsertActiveParam_store a n v σ) a (upsertActiveParam ps n v).
Proof.
  intros (els & Ha & Hels). unfold upsertActiveParam_store, upsertActiveParam.
  assert (elems_at σ a = els) as -> by (unfold elems_at; by rewrite Ha).
  rewrite (findIndex_store σ n els ps Hels).
  destruct (findIndex (fun p => name p = n) ps) as [idx|] eqn:Hidx.
  - destruct (ps !! idx) as [p|] eqn:Hp.
    + destruct (Forall2_lookup_r _ _ _ _ _ Hels Hp) as (l & Hl & Hlp).
      rewrite Hl. cbn [mbind option_bind]. rewrite Hlp.
      set (p' := {| name := name p; value := v; active := true; enum := enum p |}).
      destruct (alloc (ObjCell p') σ) as [l' σ'] eqn:Hal.
      assert (l' = (alloc (ObjCell p') σ).1) as -> by (by rewrite Hal).
      assert (σ' = (alloc (ObjCell p') σ).2) as -> by (by rewrite Hal).
      eexists. split; [apply lookup_insert_eq|].
      apply Forall2_insert.
      * eapply Forall2_impl; [exact Hels|]. intros l0 p0 H0. cbn beta in H0.
        by eapply param_at_write_new.
      * apply param_at_new. by rewrite Ha.
    + exfalso. unfold findIndex in Hidx.
      destruct (list_find _ ps) as [[i q]|] eqn:Hf; [|done].
      apply list_find_Some in Hf as (Hq & _). cbn in Hidx. simplify_eq.
  - set (p' := {| name := n; value := v; active := true; enum := Some [] |}).
    destruct (alloc (ObjCell p') σ) as [l' σ'] eqn:Hal.
    assert (l' = (alloc (ObjCell p') σ).1) as -> by (by rewrite Hal).
    assert (σ' = (alloc (ObjCell p') σ).2) as -> by (by rewrite Hal).
    eexists. split; [apply lookup_insert_eq|].
    apply Forall2_app.
    + eapply Forall2_impl; [exact Hels|]. intros l0 p0 H0. cbn beta in H0.
      by eapply param_at_write_new.
    + constructor; [|constructor]. apply param_at_new. by rewrite Ha.
Qed.

Lemma upsertActiveParam_store_other (σ : store) (a a' : loc) (ps ps' : list Param)
    (n v : string) :
  a' ≠ a -> holds σ a ps -> holds σ a' ps' ->
  holds (upsertActiveParam_store a n v σ) a' ps'.
Proof.
  intros Hne (els & Ha & Hels) (els' & Ha' & Hels').
  unfold upsertActiveParam_store.
  destruct (findIndex _ _) as [idx|].
  - destruct (_ ≫= _) as [p|]; [|by exists els'].
    destruct (alloc _ σ) as [l' σ'] eqn:Hal.
    replace σ' with (alloc (ObjCell {| name := name p; value := v;
                                      active := true; enum := enum p |}) σ).2
      by (by rewrite Hal).
    exists els'. split.
    + rewrite lookup_write_new; by rewrite ?Ha'.
    + eapply Forall2_impl; [exact Hels'|]. intros l0 p0 H0. cbn beta in H0.
      by eapply param_at_write_new.
  - destruct (alloc _ σ) as [l' σ'] eqn:Hal.
    replace σ' with (alloc (ObjCell {| name := n; value := v;
                                      active := true; enum := Some [] |}) σ).2
      by (by rewrite Hal).
    exists els'. split.
    + rewrite lookup_write_new; by rewrite ?Ha'.
    + eapply Forall2_impl; [exact Hels'|]. intros l0 p0 H0. cbn beta in H0.
      by eapply param_at_write_new.
Qed.

(** A copy of an array holds what the array holds, and the arrays of the
    store keep holding what they held. *)
Lemma holds_copy (σ : store) (a : loc) (ps : list Param) :
  holds σ a ps ->
  holds (alloc (ArrCell (elems_at σ a)) σ).2 (alloc (ArrCell (elems_at σ a)) σ).1 ps.
Proof.
  intros (els & Ha & Hels). exists els. split.
  - unfold alloc, elems_at. cbn. by rewrite Ha, lookup_insert_eq.
  - eapply Forall2_impl; [exact Hels|]. intros l p Hl. cbn beta in Hl.
    rewrite (param_at_weaken σ); [done|apply alloc_subseteq|by rewrite Hl].
Qed.

Lemma holds_weaken (σ σ' : store) (a : loc) (ps : list Param) :
  σ ⊆ σ' -> holds σ a ps -> holds σ' a ps.
Proof.
  intros Hsub (els & Ha & Hels). exists els. split.
  - by eapply lookup_weaken.
  - eapply Forall2_impl; [exact Hels|]. intros l p Hl. cbn beta in Hl.
    rewrite (param_at_weaken σ σ'); [done..|by rewrite Hl].
Qed.

Section Simulation.
Context `{Platform} (props : Props).

Lemma sign_store_list (now : N) (signedData : PlaygroundForm loc) (σ : store)
    (qs hs : list Param) :
  queryParams signedData ≠ headers signedData ->
  holds σ (queryParams signedData) qs -> holds σ (headers signedData) hs ->
  let '(r, σ') := sign_store props now signedData σ in
  (r ≫= fun _ => Ok (read_form σ' signedData))
  = sign props now (read_form σ signedData).
Proof.
  intros Hne Hq Hh. unfold sign_store, sign. cbn [apiSecret read_form headers].
  case_bool_decide; [done|].
  rewrite (holds_read σ _ hs Hh).
  case_bool_decide; [done|].
  cbn [mbind result_bind].
  change (queryParams (read_form σ signedData))
    with (read_params σ (queryParams signedData)).
  change (bodyMode (read_form σ signedData)) with (bodyMode signedData).
  change (body (read_form σ signedData)) with (body signedData).
  rewrite (holds_read σ _ qs Hq).
  pose proof (upsertActiveParam_store_holds σ _ qs "timestamp" (decimal now) Hq) as Hq1.
  pose proof (upsertActiveParam_store_other σ _ _ qs hs "timestamp" (decimal now)
                (not_eq_sym Hne) Hq Hh) as Hh1.
  rewrite (holds_read _ _ _ Hq1).
  set (sig := hmacSha256Hex _ _).
  pose proof (upsertActiveParam_store_holds _ _ _ "signature" sig Hq1) as Hq2.
  pose proof (upsertActiveParam_store_other _ _ _ _ hs "signature" sig
                (not_eq_sym Hne) Hq1 Hh1) as Hh2.
  unfold read_form, with_queryParams.
  cbn [apiSecret body bodyMode file multipartFormFields queryParams pathParams
       headers identity].
  by rewrite (holds_read _ _ _ Hq2), (holds_read _ _ _ Hh2), (holds_read _ _ _ Hh).
Qed.

(** On a store that holds the form, the submission on the store has the
    outcome of the submission on the lists the store holds. *)
Lemma mutationFn_store_list (now : N) (data : PlaygroundForm loc) (σ : store) :
  form_in_store σ data ->
  (mutationFn_store props now data σ).1 = mutationFn props now (read_form σ data).
Proof.
  intros [Hq%array_in_store_holds Hh%array_in_store_holds].
  set (qs := read_params σ (queryParams data)) in *.
  set (hs := read_params σ (headers data)) in *.
  unfold mutationFn_store, mutationFn.
  pose proof (holds_copy σ _ qs Hq) as Hqa.
  pose proof (alloc_fresh (ArrCell (elems_at σ (queryParams data))) σ) as Hfq.
  pose proof (alloc_subseteq (ArrCell (elems_at σ (queryParams data))) σ) as Hs1.
  destruct (alloc (ArrCell (elems_at σ (queryParams data))) σ) as [qa σ1].
  cbn [fst snd] in *.
  pose proof (holds_copy σ1 _ hs (holds_weaken σ σ1 _ _ Hs1 Hh)) as Hha.
  pose proof (alloc_fresh (ArrCell (elems_at σ1 (headers data))) σ1) as Hfh.
  pose proof (alloc_subseteq (ArrCell (elems_at σ1 (headers data))) σ1) as Hs2.
  destruct (alloc (ArrCell (elems_at σ1 (headers data))) σ1) as [ha σ2].
  cbn [fst snd] in *.
  pose proof (holds_weaken σ1 σ2 _ _ Hs2 Hqa) as Hqa2.
  assert (qa ≠ ha) as Hne.
  { intros ->. destruct Hqa as (els & Hl & _). congruence. }
  set (signedData := {| apiSecret := apiSecret data; body := body data;
                        bodyMode := bodyMode data; file := file data;
                        multipartFormFields := multipartFormFields data;
                        queryParams := qa; pathParams := pathParams data;
                        headers := ha; identity := identity data |}).
  assert (read_form σ2 signedData = read_form σ data) as Hread.
  { unfold read_form, signedData.
    cbn [apiSecret body bodyMode file multipartFormFields queryParams pathParams
         headers identity].
    by rewrite (holds_read _ _ _ Hqa2), (holds_read _ _ _ Hha). }
  destruct (isSigned props).
  - pose proof (sign_store_list now signedData σ2 qs hs Hne Hqa2 Hha) as Hsim.
    destruct (sign_store props now signedData σ2) as [r σ3]. cbn [fst].
    rewrite <-Hread, <-Hsim. by destruct r.
  - cbn [fst mbind result_bind]. by rewrite Hread.
Qed.

End Simulation.

(** Scenario A on the store: the envelope carries [symbol], [timestamp]
    and [signature], in this order. *)
Example sample_store_submission :
  ∃ env,
    (@mutationFn_store Reference.browser signed_post 1700000000000
       sample_form_ref sample_store).1 = Posted env
    ∧ env_url env
      = "https://api.example.com/orders?symbol=BTCUSDT&timestamp=1700000000000&signature="
          +:+ hmacSha256Hex "s3cr3t" "symbol=BTCUSDT&timestamp=1700000000000".
Proof. eexists. split; vm_compute; reflexivity. Qed.

End StoreFacts.

(** * Further properties *)

(** ** Strings: trimming twice, hexadecimal digits *)

Module MoreStringFacts.
Import Terms MoreTerms StringFacts.

Lemma drop_space_unfold (fwd : bool) (l : list ascii) :
  starts_space fwd l = false -> drop_space fwd l = l.
Proof.
  destruct l as [|a [|b [|c r3]]]; cbn [starts_space drop_space]; [done|..].
  - destruct (is_space1 a); [done|]. done.
  - destruct (is_space1 a); [done|]. cbn [orb].
    destruct (if fwd then is_space2 a b else is_space2 b a); [done|]. done.
  - destruct (is_space1 a); [done|]. cbn [orb].
    destruct (if fwd then is_space2 a b else is_space2 b a); [done|]. cbn [orb].
    destruct (if fwd then is_space3 a b c else is_space3 c b a); [done|]. done.
Qed.

Lemma drop_space_starts (fwd : bool) (l : list ascii) :
  starts_space fwd (drop_space fwd l) = false.
Proof.
  remember (length l) as n eqn:Hn. revert l Hn.
  induction n as [n IH] using lt_wf_ind. intros l Hn.
  destruct l as [|a r1]; [done|]. cbn [drop_space].
  destruct (is_space1 a) eqn:Ha.
  { apply (IH (length r1)); [simpl in Hn; lia|done]. }
  destruct r1 as [|b r2]; [by cbn; rewrite Ha|].
  destruct (if fwd then is_space2 a b else is_space2 b a) eqn:Hb.
  { apply (IH (length r2)); [simpl in Hn; lia|done]. }
  destruct r2 as [|c r3]; [by cbn; rewrite Ha, Hb|].
  destruct (if fwd then is_space3 a b c else is_space3 c b a) eqn:Hc.
  { apply (IH (length r3)); [simpl in Hn; lia|done]. }
  cbn [starts_space]. by rewrite Ha, Hb, Hc.
Qed.

Lemma starts_space_prefix (fwd : bool) (p k : list ascii) :
  starts_space fwd p = true -> starts_space fwd (p ++ k) = true.
Proof.
  destruct p as [|a [|b [|c r3]]]; cbn [starts_space app]; [done|..].
  - rewrite orb_false_r. by intros ->.
  - destruct (is_space1 a); [done|]. cbn [orb]. rewrite orb_false_r.
    intros ->. done.
  - done.
Qed.

Lemma drop_space_prefix_fixed (fwd : bool) (p k : list ascii) :
  starts_space fwd (p ++ k) = false -> drop_space fwd p = p.
Proof.
  intros Hx. apply drop_space_unfold.
  destruct (starts_space fwd p) eqn:Hp; [|done].
  by rewrite (starts_space_prefix fwd p k Hp) in Hx.
Qed.

(** [trim] of a trimmed text changes nothing. *)
Lemma trim_trim (s : string) : trim (trim s) = trim s.
Proof.
  apply chars_inj. rewrite (chars_trim (trim s)), (chars_trim s).
  set (x := drop_space true (chars s)).
  set (y := drop_space false (rev x)).
  assert (drop_space true (rev y) = rev y) as ->.
  { destruct (drop_space_suffix false (rev x)) as [k Hk]. fold y in Hk.
    apply (f_equal (@rev ascii)) in Hk.
    rewrite rev_involutive, rev_app_distr in Hk.
    apply (drop_space_prefix_fixed true (rev y) (rev k)).
    rewrite <-Hk. apply drop_space_starts. }
  rewrite rev_involutive. f_equal. apply drop_space_unfold, drop_space_starts.
Qed.

Lemma trim_empty : trim EmptyString = EmptyString.
Proof. reflexivity. Qed.

Lemma code_range (c : ascii) : (0 <= code c < 256)%Z.
Proof.
  unfold code. pose proof (N_ascii_bounded c) as Hb. lia.
Qed.

Lemma code_char (z : Z) : (0 <= z < 256)%Z -> code (char z) = z.
Proof.
  intros Hz. unfold code, char. rewrite N_ascii_embedding by lia. lia.
Qed.

Lemma hex_digit_lower (d : Z) :
  (0 <= d < 16)%Z -> is_hex_lower (hex_digit false d) = true.
Proof.
  intros Hd. unfold is_hex_lower, is_digit, in_range, hex_digit.
  destruct (d <? 10)%Z eqn:Hlt.
  - apply Z.ltb_lt in Hlt. rewrite code_char by lia.
    apply orb_true_iff. left. apply andb_true_iff. split; lia.
  - apply Z.ltb_ge in Hlt. rewrite code_char by lia.
    apply orb_true_iff. right. apply andb_true_iff. split; lia.
Qed.

Lemma hex2_lower (b : Z) :
  (0 <= b < 256)%Z -> Forall (fun c => is_hex_lower c = true) (chars (hex2 false b)).
Proof.
  intros Hb. unfold hex2. cbn [chars list_ascii_of_string].
  repeat constructor; apply hex_digit_lower.
  - rewrite Z.shiftr_div_pow2 by lia. change (2 ^ 4)%Z with 16%Z.
    split; [apply Z.div_pos; lia|apply Z.div_lt_upper_bound; lia].
  - change 15%Z with (Z.ones 4). rewrite Z.land_ones by lia.
    change (2 ^ 4)%Z with 16%Z. apply Z.mod_pos_bound. lia.
Qed.

End MoreStringFacts.

(** ** The signature is a text of 64 hexadecimal digits *)

Module HashFacts.
Import Playground Terms MoreTerms StringFacts MoreStringFacts.

Lemma bytes_of_word_bytes (x : Z) :
  length (Sha256.bytes_of_word x) = 4%nat ∧ Forall is_byte (Sha256.bytes_of_word x).
Proof.
  split; [done|]. unfold Sha256.bytes_of_word, is_byte.
  repeat constructor;
    change 255%Z with (Z.ones 8); rewrite Z.land_ones by lia;
    change (2 ^ 8)%Z with 256%Z; apply Z.mod_pos_bound; lia.
Qed.

Lemma round_length (st : list Z) (kw : Z * Z) :
  length st = 8%nat -> length (Sha256.round st kw) = 8%nat.
Proof.
  intros Hl. do 9 (destruct st as [|? st]; try done).
Qed.

Lemma rounds_length (kws : list (Z * Z)) (st : list Z) :
  length st = 8%nat -> length (foldl Sha256.round st kws) = 8%nat.
Proof.
  revert st. induction kws as [|kw kws IH]; intros st Hl; [done|].
  cbn [foldl]. by apply IH, round_length.
Qed.

Lemma compress_length (st block : list Z) :
  length st = 8%nat -> length (Sha256.compress st block) = 8%nat.
Proof.
  intros Hl. unfold Sha256.compress.
  rewrite length_zip_with, rounds_length by done. lia.
Qed.

Lemma blocks_length (fuel : nat) (ws st : list Z) :
  length st = 8%nat -> length (Sha256.blocks fuel ws st) = 8%nat.
Proof.
  revert ws st. induction fuel as [|f IH]; intros ws st Hl; [by destruct ws|].
  destruct ws as [|w ws]; [done|]. cbn [Sha256.blocks].
  by apply IH, compress_length.
Qed.

Lemma words_bytes (ws : list Z) :
  length (ws ≫= Sha256.bytes_of_word) = (4 * length ws)%nat
  ∧ Forall is_byte (ws ≫= Sha256.bytes_of_word).
Proof.
  induction ws as [|w ws [IHl IHb]]; [by split|].
  rewrite bind_cons. destruct (bytes_of_word_bytes w) as [Hl Hb]. split.
  - rewrite length_app, Hl, IHl. simpl. lia.
  - by apply Forall_app.
Qed.

(** A digest is 32 bytes. *)
Lemma sha256_bytes (msg : list Z) :
  length (Sha256.sha256 msg) = 32%nat ∧ Forall is_byte (Sha256.sha256 msg).
Proof.
  unfold Sha256.sha256.
  destruct (words_bytes
              (Sha256.blocks (length (Sha256.words_of (Sha256.pad msg)))
                 (Sha256.words_of (Sha256.pad msg)) Sha256.H0)) as [Hl Hb].
  split; [|done]. rewrite Hl, blocks_length; done.
Qed.

Lemma chars_foldl_hex (bytes : list Z) (acc : string) :
  chars (foldl (fun hex b => hex +:+ hex2 false b) acc bytes)
  = chars acc ++ (bytes ≫= fun b => chars (hex2 false b)).
Proof.
  revert acc. induction bytes as [|b bytes IH]; intros acc.
  - by rewrite app_nil_r.
  - cbn [foldl]. rewrite IH, chars_app, bind_cons. by rewrite app_assoc.
Qed.

Lemma chars_bufferToHex (bytes : list Z) :
  chars (bufferToHex bytes) = bytes ≫= fun b => chars (hex2 false b).
Proof. unfold bufferToHex. by rewrite chars_foldl_hex. Qed.

Lemma length_chars (s : string) : length (chars s) = String.length s.
Proof. induction s as [|c s IH]; [done|]. simpl. by rewrite <-IH. Qed.

(** [bufferToHex] writes two lower-case digits for each byte. *)
Lemma bufferToHex_digits (bytes : list Z) :
  Forall is_byte bytes ->
  String.length (bufferToHex bytes) = (2 * length bytes)%nat
  ∧ Forall (fun c => is_hex_lower c = true) (chars (bufferToHex bytes)).
Proof.
  intros Hb. rewrite <-length_chars, chars_bufferToHex.
  induction Hb as [|b bytes Hb _ [IHl IHd]]; [by split|].
  rewrite bind_cons. split.
  - rewrite length_app, IHl. simpl. lia.
  - apply Forall_app. split; [by apply hex2_lower|done].
Qed.

Lemma hmac_bytes (key message : list Z) :
  length (Sha256.hmac key message) = 32%nat
  ∧ Forall is_byte (Sha256.hmac key message).
Proof. unfold Sha256.hmac. apply sha256_bytes. Qed.

Lemma hmacSha256Hex_length (secret message : string) :
  String.length (hmacSha256Hex secret message) = 64%nat.
Proof.
  unfold hmacSha256Hex.
  destruct (hmac_bytes (utf8 secret) (utf8 message)) as [Hl Hb].
  destruct (bufferToHex_digits _ Hb) as [Hlen _]. by rewrite Hlen, Hl.
Qed.


End HashFacts.

(** ** More on [upsertActiveParam] and on the signing block *)

Module MoreSigningFacts.
Import Playground Terms MoreTerms StringFacts MoreStringFacts QueryFacts Upsert
       SubmissionFacts HashFacts.

Lemma refreshed_refreshed (p : Param) (v v' : string) :
  refreshed (refreshed p v) v' = refreshed p v'.
Proof. done. Qed.

Lemma refreshed_same (p : Param) (v : string) :
  value p = v -> active p = true -> refreshed p v = p.
Proof. destruct p. cbn. by intros -> ->. Qed.

(** X2. A second upsert of a name overwrites the first: the list is the
    one the second upsert alone would give. *)
Theorem upsertActiveParam_last_write_wins (ps : list Param) (n v v' : string) :
  upsertActiveParam (upsertActiveParam ps n v) n v' = upsertActiveParam ps n v'.
Proof.
  destruct (first_match_or_none n ps) as [(pre & p & post & -> & Hp & Hpre)|Hps].
  - rewrite !(upsert_found pre post p) by done.
    by rewrite (upsert_found pre post (refreshed p v)).
  - rewrite !(upsert_absent ps) by done.
    by rewrite (upsert_found ps [] (appended n v)).
Qed.

Lemma filter_upsert (P : Param -> Prop) `{!∀ p, Decision (P p)}
    (ps : list Param) (n v : string) :
  (∀ p, name p = n -> ¬ P p) ->
  filter P (upsertActiveParam ps n v) = filter P ps.
Proof.
  intros HP.
  destruct (first_match_or_none n ps) as [(pre & p & post & -> & Hp & Hpre)|Hps].
  - rewrite upsert_found by done. rewrite !filter_app, !filter_cons.
    rewrite !decide_False; [done|by apply HP..].
  - rewrite upsert_absent by done. rewrite filter_app, filter_cons.
    rewrite decide_False by (by apply HP). by rewrite filter_nil, app_nil_r.
Qed.

Lemma length_upsert (ps : list Param) (n v : string) :
  length (upsertActiveParam ps n v)
  = if bool_decide (n ∈ name <$> ps) then length ps else S (length ps).
Proof.
  destruct (first_match_or_none n ps) as [(pre & p & post & -> & Hp & Hpre)|Hps].
  - rewrite upsert_found by done. rewrite bool_decide_eq_true_2.
    + by rewrite !length_app.
    + rewrite fmap_app, fmap_cons, Hp. apply elem_of_app. right. apply list_elem_of_here.
  - rewrite upsert_absent by done. rewrite bool_decide_eq_false_2.
    + rewrite length_app. simpl. lia.
    + intros (p & Hn & Hin)%list_elem_of_fmap.
      eapply Forall_forall in Hps; [|exact Hin]. done.
Qed.

(** X3. An upsert touches no entry of another name, in content or in
    order, and makes the list longer by one exactly when no entry
    carried the name. *)
Theorem upsertActiveParam_keeps_other_names (ps : list Param) (n v : string) :
  filter (fun p => name p ≠ n) (upsertActiveParam ps n v)
  = filter (fun p => name p ≠ n) ps
  ∧ length (upsertActiveParam ps n v)
    = if bool_decide (n ∈ name <$> ps) then length ps else S (length ps).
Proof.
  split; [|apply length_upsert].
  apply (filter_upsert (fun p => name p ≠ n)). naive_solver.
Qed.

Lemma find_replace {A} (P : A -> Prop) `{!∀ x, Decision (P x)}
    (l1 l2 : list A) (x y : A) :
  ¬ P x -> ¬ P y -> find_ P (l1 ++ x :: l2) = find_ P (l1 ++ y :: l2).
Proof.
  intros Hx Hy. unfold find_.
  induction l1 as [|z l1 IH]; cbn [app list_find].
  - by rewrite !decide_False by done.
  - destruct (decide (P z)); [done|].
    destruct (list_find P (l1 ++ x :: l2)) as [[]|],
             (list_find P (l1 ++ y :: l2)) as [[]|]; naive_solver.
Qed.

Lemma find_snoc {A} (P : A -> Prop) `{!∀ x, Decision (P x)} (l : list A) (x : A) :
  ¬ P x -> find_ P (l ++ [x]) = find_ P l.
Proof.
  intros Hx. unfold find_.
  induction l as [|z l IH]; cbn [app list_find].
  - by rewrite decide_False by done.
  - destruct (decide (P z)); [done|].
    destruct (list_find P (l ++ [x])) as [[]|],
             (list_find P l) as [[]|]; naive_solver.
Qed.

Lemma named_upsert_ne (ps : list Param) (n n' v : string) :
  n ≠ n' -> named n' (upsertActiveParam ps n v) = named n' ps.
Proof.
  intros Hne. unfold named.
  destruct (first_match_or_none n ps) as [(pre & p & post & -> & Hp & Hpre)|Hps].
  - rewrite upsert_found by done.
    apply (find_replace (fun q => name q = n')); cbn; congruence.
  - rewrite upsert_absent by done.
    apply (find_snoc (fun q => name q = n')). cbn. congruence.
Qed.

Lemma upsert_same (ps : list Param) (n v : string) (p : Param) :
  named n ps = Some p -> value p = v -> active p = true ->
  upsertActiveParam ps n v = ps.
Proof.
  intros Hnamed Hv Ha.
  destruct (first_match_or_none n ps) as [(pre & q & post & -> & Hq & Hpre)|Hps].
  - unfold named, find_ in Hnamed.
    rewrite (list_find_first (fun x => name x = n) pre post q Hpre Hq) in Hnamed.
    cbn in Hnamed. simplify_eq.
    rewrite upsert_found by done. by rewrite refreshed_same.
  - unfold named, find_ in Hnamed.
    by rewrite (list_find_absent (fun x => name x = n) ps Hps) in Hnamed.
Qed.

Lemma toSign_filter `{Platform} (params params' : list Param)
    (mode : option BodyMode) (body' : string) :
  filter (fun p => name p ≠ "signature") params
  = filter (fun p => name p ≠ "signature") params' ->
  toSign params mode body' = toSign params' mode body'.
Proof. intros Heq. unfold toSign. by rewrite Heq. Qed.

Lemma kept_kept (l : list Param) : kept (kept l) = kept l.
Proof.
  unfold kept. induction l as [|p l IH]; [done|].
  rewrite filter_cons. destruct (decide _) as [Hp|Hp]; [|done].
  by rewrite filter_cons, decide_True, IH by done.
Qed.

(** X4. Entries that are inactive, that have no name or that are named
    [signature] never reach the signed text: two lists with the same
    signed entries give the same text. *)
Theorem toSign_reads_signed_entries_only `{Platform} (params params' : list Param)
    (mode : option BodyMode) (body' : string) :
  signed_entries params = signed_entries params' ->
  toSign params mode body' = toSign params' mode body'.
Proof.
  intros Heq. unfold toSign.
  rewrite !toRecordFromActivePairs_assign_all.
  change (kept (filter (fun p => name p ≠ "signature") params))
    with (signed_entries params).
  change (kept (filter (fun p => name p ≠ "signature") params'))
    with (signed_entries params').
  by rewrite Heq.
Qed.

Section Block.
Context `{Platform} (props : Props).

Lemma sign_inv (now : N) (d d' : PlaygroundForm (list Param)) :
  sign props now d = Ok d' ->
  trim (default EmptyString (apiSecret d)) ≠ EmptyString
  ∧ getHeaderValue (headers d) (apiKeyHeaderName props) ≠ EmptyString
  ∧ d' = with_queryParams d
           (upsertActiveParam
              (upsertActiveParam (queryParams d) "timestamp" (decimal now))
              "signature"
              (hmacSha256Hex (trim (default EmptyString (apiSecret d)))
                 (toSign (upsertActiveParam (queryParams d) "timestamp" (decimal now))
                         (bodyMode d) (body d)))).
Proof.
  unfold sign. case_bool_decide as Hs; [done|]. case_bool_decide as Hk; [done|].
  by intros [= <-].
Qed.

(** X5. When the signing block returns, the list holds an active
    [timestamp] entry whose value is the clock reading, and an active
    [signature] entry of 64 characters; the entries of every other name
    are those of the form, in the same order, and no other field of the
    form is changed. *)
Theorem sign_adds_timestamp_and_signature (now : N)
    (d d' : PlaygroundForm (list Param)) :
  sign props now d = Ok d' ->
  (∃ t, named "timestamp" (queryParams d') = Some t
        ∧ active t = true ∧ value t = decimal now)
  ∧ (∃ g, named "signature" (queryParams d') = Some g
          ∧ active g = true ∧ String.length (value g) = 64%nat)
  ∧ filter user_entry (queryParams d') = filter user_entry (queryParams d)
  ∧ d' = with_queryParams d (queryParams d').
Proof.
  intros (_ & _ & ->)%sign_inv. cbn [queryParams with_queryParams].
  set (live := upsertActiveParam (queryParams d) "timestamp" (decimal now)).
  set (sig := hmacSha256Hex _ _).
  split_and!.
  - destruct (upsert_named (queryParams d) "timestamp" (decimal now))
      as (t & Ht & _ & Hv & Ha).
    exists t. split_and!; [|done..]. by rewrite named_upsert_ne.
  - destruct (upsert_named live "signature" sig) as (g & Hg & _ & Hv & Ha).
    exists g. split_and!; [done..|]. rewrite Hv.
    apply hmacSha256Hex_length.
  - rewrite (filter_upsert user_entry) by (unfold user_entry; naive_solver).
    subst live.
    by rewrite (filter_upsert user_entry) by (unfold user_entry; naive_solver).
  - done.
Qed.

(** X6. Signing what a signing returned, at the same clock reading,
    returns it again: no second [timestamp] or [signature] entry appears
    and the signature is the same. *)
Theorem sign_again_same_clock (now : N) (d d' : PlaygroundForm (list Param)) :
  sign props now d = Ok d' -> sign props now d' = Ok d'.
Proof.
  intros (Hs & Hk & ->)%sign_inv.
  set (live := upsertActiveParam (queryParams d) "timestamp" (decimal now)).
  set (sig := hmacSha256Hex (trim (default EmptyString (apiSecret d)))
                (toSign live (bodyMode d) (body d))).
  rewrite sign_ok by done. cbn zeta. cbn [queryParams with_queryParams
    apiSecret bodyMode body headers file multipartFormFields pathParams identity].
  assert (upsertActiveParam (upsertActiveParam live "signature" sig)
            "timestamp" (decimal now)
          = upsertActiveParam live "signature" sig) as ->.
  { destruct (upsert_named (queryParams d) "timestamp" (decimal now))
      as (t & Ht & _ & Hv & Ha).
    apply (upsert_same _ _ _ t); [|done..]. by rewrite named_upsert_ne. }
  assert (toSign (upsertActiveParam live "signature" sig) (bodyMode d) (body d)
          = toSign live (bodyMode d) (body d)) as ->.
  { apply toSign_filter.
    apply (filter_upsert (fun p => name p ≠ "signature")). naive_solver. }
  fold sig.
  destruct (upsert_named live "signature" sig) as (g & Hg & _ & Hv & Ha).
  by rewrite (upsert_same _ _ _ g Hg Hv Ha).
Qed.

Lemma tryParseJsonObject_trim (body' : string) :
  tryParseJsonObject (trim body') = tryParseJsonObject body'.
Proof. unfold tryParseJsonObject. by rewrite trim_trim. Qed.

(** X7. White space around the secret and around the body does not
    count: the form with both trimmed is signed to the same query
    parameters, or refused with the same error. *)
Theorem sign_ignores_surrounding_space (now : N) (d : PlaygroundForm (list Param)) :
  signed_params (sign props now (trimmed_form d)) = signed_params (sign props now d).
Proof.
  unfold sign, trimmed_form.
  cbn [apiSecret headers queryParams bodyMode body default id].
  rewrite trim_trim.
  case_bool_decide; [done|]. case_bool_decide; [done|].
  cbn [signed_params with_queryParams queryParams]. do 3 f_equal.
  unfold toSign. by rewrite tryParseJsonObject_trim.
Qed.

Lemma getHeaderValue_first (pre post : list Param) (h : Param) (n : string) :
  Forall (fun x => name x ≠ n) pre -> name h = n ->
  getHeaderValue (pre ++ h :: post) n
  = if active h then trim (value h) else EmptyString.
Proof.
  intros Hpre Hn. unfold getHeaderValue, find_.
  by rewrite (list_find_first (fun x => name x = n) pre post h Hpre Hn).
Qed.

(** X8. Only the first header of the designated name is read. When it is
    inactive, a signed submission with a good secret throws the
    missing-header error and calls nothing, whatever headers follow it,
    an active one of the same name with a value included. *)
Theorem first_api_key_header_decides (now : N) (d : PlaygroundForm (list Param))
    (pre post : list Param) (h : Param) :
  isSigned props = true ->
  trim (default EmptyString (apiSecret d)) ≠ EmptyString ->
  headers d = pre ++ h :: post ->
  Forall (fun x => name x ≠ apiKeyHeaderName props) pre ->
  name h = apiKeyHeaderName props -> active h = false ->
  mutationFn props now d = Threw (new_Error (missing_header_message props)).
Proof.
  intros Hsigned Hs Hh Hpre Hn Ha. unfold mutationFn. rewrite Hsigned.
  rewrite sign_without_key; [done..|].
  by rewrite Hh, getHeaderValue_first, Ha.
Qed.

End Block.

Lemma sign_adds_timestamp_and_signature_witness :
  (∃ t, named "timestamp"
          (upsertActiveParam
             (upsertActiveParam [symbol_BTCUSDT] "timestamp" "1700000000000")
             "signature"
             (hmacSha256Hex "s3cr3t" "symbol=BTCUSDT&timestamp=1700000000000"))
        = Some t ∧ active t = true ∧ value t = decimal 1700000000000)
  ∧ filter user_entry
      (upsertActiveParam
         (upsertActiveParam [symbol_BTCUSDT] "timestamp" "1700000000000")
         "signature"
         (hmacSha256Hex "s3cr3t" "symbol=BTCUSDT&timestamp=1700000000000"))
    = filter user_entry [symbol_BTCUSDT].
Proof.
  destruct (@sign_adds_timestamp_and_signature Reference.browser signed_post
              1700000000000 (order_form "s3cr3t" [symbol_BTCUSDT] EmptyString)
              _ eq_refl) as (Ht & _ & Hf & _).
  split; [exact Ht|exact Hf].
Defined.

(** An inactive entry, an entry without a name and an old signature
    change nothing of the signed text. *)
Lemma toSign_reads_signed_entries_only_witness :
  @toSign Reference.browser
    [ symbol_BTCUSDT;
      {| name := "side"; value := "BUY"; active := false; enum := None |};
      {| name := EmptyString; value := "x"; active := true; enum := None |};
      {| name := "signature"; value := "00"; active := true; enum := None |} ]
    (Some ModeText) EmptyString
  = @toSign Reference.browser [symbol_BTCUSDT] (Some ModeText) EmptyString.
Proof.
  apply (@toSign_reads_signed_entries_only Reference.browser).
  reflexivity.
Defined.

Lemma sign_again_same_clock_witness :
  ∃ d',
    @sign Reference.browser signed_post 1700000000000
      (order_form "s3cr3t" [symbol_BTCUSDT] EmptyString) = Ok d'
    ∧ @sign Reference.browser signed_post 1700000000000 d' = Ok d'.
Proof.
  eexists. split; [reflexivity|].
  apply (@sign_again_same_clock Reference.browser signed_post 1700000000000
           (order_form "s3cr3t" [symbol_BTCUSDT] EmptyString)).
  reflexivity.
Defined.

(** The second header has the name, is active and has a value; the first
    is inactive. *)
Lemma first_api_key_header_decides_witness :
  @mutationFn Reference.browser signed_post 1700000000000 shadowed_key_form
  = Threw (new_Error (missing_header_message signed_post)).
Proof.
  apply (@first_api_key_header_decides Reference.browser signed_post
           1700000000000 shadowed_key_form []
           [api_key_header]
           {| name := "X-MBX-APIKEY"; value := "old"; active := false;
              enum := None |}).
  - reflexivity.
  - vm_compute. discriminate.
  - reflexivity.
  - constructor.
  - reflexivity.
  - reflexivity.
Defined.

End MoreSigningFacts.

(** ** The readings of extensions and of declared parameters *)

Module ExtensionFacts.
Import Playground Terms MoreTerms StringFacts MoreStringFacts SubmissionFacts.
Import ListItem Component Wrapper.

(** X9. The list item and the dialog wrapper read the same extension
    with two functions; they disagree exactly on a number other than 0
    and 1, which only the list item takes as true, and on a text that
    trims and lower-cases to [y], which only the wrapper takes as true. *)
Theorem isTruthy_isTruthyExtension_differ (v : jsval) :
  isTruthy v ≠ isTruthyExtension v
  <-> (∃ n, v = VNum n ∧ n ≠ "0" ∧ n ≠ "1")
      ∨ (∃ s, v = VStr s ∧ toLowerCase (trim s) = "y").
Proof.
  destruct v as [| |b|n|s|l|o]; cbn [isTruthy isTruthyExtension];
    try (split; [done|intros [(? & ? & _)|(? & ? & _)]; done]).
  - split.
    + intros Hne. left. exists n. split; [done|].
      repeat case_bool_decide; naive_solver.
    + intros [(n' & [= <-] & H0 & H1)|(? & ? & _)]; [|done].
      by rewrite !bool_decide_eq_false_2 by done.
  - set (t := toLowerCase (trim s)). split.
    + intros Hne. right. exists s. split; [done|].
      repeat case_bool_decide; naive_solver.
    + intros [(? & ? & _)|(s' & [= <-] & Hy)]; [done|]. fold t in Hy.
      rewrite Hy. by vm_compute.
Qed.

Lemma note_texts (items : list jsval) :
  Forall (fun n => n ≠ EmptyString ∧ trim n = n)
    (filter (fun s => s ≠ EmptyString)
       ((fun v => match v with VStr s => trim s | _ => EmptyString end) <$> items)).
Proof.
  apply Forall_forall. intros n [Hn Hin]%list_elem_of_filter. split; [done|].
  apply list_elem_of_fmap in Hin as (v & -> & _).
  destruct v; try done. apply trim_trim.
Qed.

Lemma normalizeNotes_notes (value : jsval) :
  Forall (fun n => n ≠ EmptyString ∧ trim n = n) (normalizeNotes value).
Proof.
  unfold normalizeNotes. destruct (falsy value); [done|].
  destruct value; try done.
  - case_bool_decide; [|done]. apply Forall_singleton. split; [done|apply trim_trim].
  - apply note_texts.
Qed.

Lemma notes_again (l : list string) :
  Forall (fun n => n ≠ EmptyString ∧ trim n = n) l ->
  normalizeNotes (VArr (VStr <$> l)) = l.
Proof.
  unfold normalizeNotes. cbn [falsy]. induction 1 as [|n l [Hn Ht] _ IH]; [done|].
  rewrite !fmap_cons, filter_cons. rewrite Ht.
  by rewrite decide_True, IH by done.
Qed.

(** X10. A note that [normalizeNotes] returns is never blank and has no
    white space around it, and the notes returned, normalised again as a
    list, come back unchanged. *)
Theorem normalizeNotes_trimmed_and_stable (value : jsval) :
  Forall (fun n => n ≠ EmptyString ∧ trim n = n) (normalizeNotes value)
  ∧ normalizeNotes (VArr (VStr <$> normalizeNotes value)) = normalizeNotes value.
Proof.
  split; [apply normalizeNotes_notes|].
  apply notes_again, normalizeNotes_notes.
Qed.

Lemma find_cons {A} (P : A -> Prop) `{!∀ x, Decision (P x)} (x : A) (l : list A) :
  find_ P (x :: l) = if decide (P x) then Some x else find_ P l.
Proof.
  unfold find_. cbn [list_find]. destruct (decide (P x)); [done|].
  by destruct (list_find P l) as [[]|].
Qed.

Lemma find_holds {A} (P : A -> Prop) `{!∀ x, Decision (P x)} (x : A) (l : list A) :
  find_ P l = Some x -> P x.
Proof.
  unfold find_. destruct (list_find P l) as [[i y]|] eqn:Hf; [|done].
  intros [= <-]. by apply list_find_Some in Hf as (_ & ? & _).
Qed.

Lemma apiKeyHeaderName_lower (headers' : option (list Header)) :
  toLowerCase (apiKeyHeaderName headers') = "x-mbx-apikey".
Proof.
  unfold apiKeyHeaderName. destruct headers' as [hs|]; [|done].
  cbn [mbind option_bind].
  destruct (find_ _ hs) as [h|] eqn:Hf; [|done].
  by apply (find_holds (fun h => toLowerCase (h_name h) = "x-mbx-apikey")) in Hf.
Qed.



Section Defaults.
Context `{Platform} (props : Props).

(** X12. The default form holds an empty secret: on a signed operation a
    submission of the default form throws the error that names the API
    Secret, whatever parameters and headers the operation declares. *)
Theorem default_form_signed_needs_secret (now : N)
    (queryParams' headers' : list Header) (sortedPathParams : list PathParam)
    (defaultBody : string) (remembered : option string) :
  isSigned props = true ->
  mutationFn props now
    (defaultValues queryParams' headers' sortedPathParams defaultBody remembered)
  = Threw (new_Error "API Secret is required for signed endpoints.").
Proof.
  intros Hsigned. unfold mutationFn. rewrite Hsigned.
  by rewrite sign_without_secret.
Qed.

End Defaults.

Lemma default_form_signed_needs_secret_witness :
  @mutationFn Reference.browser signed_post 1700000000000
    (defaultValues [] [Samples.key_header "X-MBX-APIKEY" true] [] EmptyString
       (Some NO_IDENTITY))
  = Threw (new_Error "API Secret is required for signed endpoints.").
Proof.
  apply (@default_form_signed_needs_secret Reference.browser signed_post).
  reflexivity.
Defined.

(** X13. In the default form the entries that are active and have a name
    are those of the declared query parameters that are required and
    have a name, in the declared order, each with its default value or
    the empty text. *)
Theorem default_form_keeps_required_only
    (queryParams' headers' : list Header) (sortedPathParams : list PathParam)
    (defaultBody : string) (remembered : option string) :
  (fun p => (name p, value p)) <$>
    kept (queryParams
            (defaultValues queryParams' headers' sortedPathParams defaultBody
               remembered))
  = (fun d => (h_name d, default EmptyString (h_defaultValue d))) <$>
      filter (fun d => h_name d ≠ EmptyString ∧ h_isRequired d = Some true)
             queryParams'.
Proof.
  cbn [defaultValues queryParams]. unfold kept.
  destruct queryParams' as [|d0 l0]; [done|].
  rewrite bool_decide_eq_true_2 by (cbn; lia).
  generalize (d0 :: l0). clear. intros l.
  induction l as [|d l IH]; [done|].
  rewrite fmap_cons, !filter_cons. cbn [name active].
  destruct (h_isRequired d) as [[]|]; cbn [default].
  - destruct (decide (h_name d = EmptyString)) as [Hn|Hn].
    + rewrite !decide_False by naive_solver. apply IH.
    + rewrite !decide_True by naive_solver. rewrite !fmap_cons. cbn [name value].
      f_equal. apply IH.
  - rewrite !decide_False by naive_solver. apply IH.
  - rewrite !decide_False by naive_solver. apply IH.
Qed.

End ExtensionFacts.

(** ** The connector examples of the sidecar *)

Module SidecarFacts.
Import Terms MoreTerms StringFacts MoreStringFacts ObjFacts.
Import Sidecar.

Import Samples.

Section Examples.
Variable inherited : string -> bool.

Lemma tidy_nil : tidy [].
Proof. split; [apply NoDup_nil_2|done]. Qed.

Lemma length_positive (s : string) :
  (0 <? String.length s)%nat = true -> s ≠ EmptyString.
Proof. by destruct s. Qed.

Lemma tidy_assign (k v : string) (out : record string) :
  tidy out -> (0 <? String.length (trim v))%nat = true ->
  tidy (Obj.assign (trim k) (trim v) out).
Proof.
  intros [Hnd Hall] Hv%length_positive. split; [by apply assign_NoDup|].
  apply Forall_forall. intros [k' v'] [(_ & -> & ->)|[_ Hin]]%elem_of_assign;
    [|by eapply Forall_forall in Hall|done].
  cbn [fst snd]. by rewrite !trim_trim.
Qed.

Lemma tidy_collect (rec : record jsval) (out : record string) :
  tidy out -> tidy (collect rec out).
Proof.
  unfold collect. revert out. induction rec as [|[k v] rec IH]; intros out Hout;
    [done|].
  cbn [foldl fst snd]. apply IH.
  destruct v; try done.
  destruct (0 <? _)%nat eqn:Hlen; [|done]. by apply tidy_assign.
Qed.

Lemma tidy_collect_unset (rec : record jsval) (out : record string) :
  tidy out -> tidy (collect_unset inherited rec out).
Proof.
  unfold collect_unset. revert out.
  induction rec as [|[k v] rec IH]; intros out Hout; [done|].
  cbn [foldl fst snd]. apply IH.
  destruct v; try done.
  destruct (0 <? _)%nat eqn:Hlen; [|done].
  destruct (unset _ _ _); [|done]. by apply tidy_assign.
Qed.

Lemma tidy_items (items : list jsval) (out : record string) :
  tidy out ->
  tidy (foldl (fun out item =>
                 match item with
                 | VObj rec => collect_unset inherited rec out
                 | _ => out
                 end) out items).
Proof.
  revert out. induction items as [|item items IH]; intros out Hout; [done|].
  cbn [foldl]. apply IH. destruct item; try done. by apply tidy_collect_unset.
Qed.

Lemma nonempty_Some (out out' : record string) :
  nonempty out = Some out' -> out' = out ∧ out ≠ [].
Proof.
  unfold nonempty. case_bool_decide as Hlen; [|done]. intros [= <-].
  split; [done|]. intros ->. cbn in Hlen. lia.
Qed.

(** X14. When [parseConnectorsExamples] returns a record, the record is
    not empty, holds no key twice, and each of its keys and values is a
    text without white space around it, the values not empty. *)
Theorem parseConnectorsExamples_tidy (raw : jsval) (out : record string) :
  parseConnectorsExamples inherited raw = Some out ->
  out ≠ [] ∧ NoDup out.*1
  ∧ Forall (fun kv : string * string =>
              trim kv.1 = kv.1 ∧ kv.2 ≠ EmptyString ∧ trim kv.2 = kv.2) out.
Proof.
  unfold parseConnectorsExamples. destruct (ListItem.falsy raw); [done|].
  destruct raw as [| | | | |items|rec]; try done.
  - intros [-> Hne]%nonempty_Some. split; [done|].
    apply (tidy_items items []), tidy_nil.
  - intros [-> Hne]%nonempty_Some. split; [done|].
    apply (tidy_collect rec []), tidy_nil.
Qed.

Lemma find_key_None (k : string) (out : record string) :
  Playground.find_ (fun kv : string * string => kv.1 = k) out = None ->
  k ∉ out.*1.
Proof.
  unfold Playground.find_.
  destruct (list_find _ out) as [[]|] eqn:Hf; [done|]. intros _.
  apply list_find_None in Hf.
  intros (kv & -> & Hin)%list_elem_of_fmap.
  eapply Forall_forall in Hf; [|exact Hin]. done.
Qed.

Lemma unset_absent (k : string) (out : record string) :
  tidy out -> unset inherited k out = true -> k ∉ out.*1.
Proof.
  intros [_ Hall]. unfold unset.
  destruct (Playground.find_ _ out) as [kv|] eqn:Hf.
  - intros Hv%bool_decide_eq_true.
    unfold Playground.find_ in Hf.
    destruct (list_find _ out) as [[i kv']|] eqn:Hl; [|done].
    injection Hf as ->.
    apply list_find_Some in Hl as (Hi%list_elem_of_lookup_2 & _ & _).
    eapply Forall_forall in Hall; [|exact Hi]. naive_solver.
  - intros _. by apply find_key_None.
Qed.

Lemma collect_unset_keeps (rec : record jsval) (out : record string)
    (k v : string) :
  tidy out -> (k, v) ∈ out -> (k, v) ∈ collect_unset inherited rec out.
Proof.
  unfold collect_unset. revert out.
  induction rec as [|[k' v'] rec IH]; intros out Hout Hin; [done|].
  cbn [foldl fst snd].
  destruct v' as [| | | |s| |]; try (by apply IH).
  destruct (0 <? _)%nat eqn:Hlen; [|by apply IH].
  destruct (unset _ _ _) eqn:Hu; [|by apply IH].
  apply IH; [by apply tidy_assign|].
  apply elem_of_assign; [apply Hout|]. right. split; [|done]. right.
  intros ->. apply (unset_absent _ _ Hout) in Hu. apply Hu.
  apply list_elem_of_fmap. by exists (trim k', v).
Qed.

Lemma items_keep (items : list jsval) (out : record string) (k v : string) :
  tidy out -> (k, v) ∈ out ->
  (k, v) ∈ foldl (fun out item =>
                    match item with
                    | VObj rec => collect_unset inherited rec out
                    | _ => out
                    end) out items.
Proof.
  revert out. induction items as [|item items IH]; intros out Hout Hin; [done|].
  cbn [foldl]. destruct item; try (by apply IH).
  apply IH; [by apply tidy_collect_unset|by apply collect_unset_keeps].
Qed.

Lemma unset_nil (k : string) : unset inherited k [] = negb (inherited k).
Proof. done. Qed.

Lemma collect_snoc (rec : record jsval) (k v : string) (out : record string) :
  collect (rec ++ [(k, VStr v)]) out
  = if (0 <? String.length (trim v))%nat
    then Obj.assign (trim k) (trim v) (collect rec out)
    else collect rec out.
Proof. unfold collect. by rewrite foldl_app. Qed.

(** X15. Of two examples for one connector, the list form keeps the
    first and the object form keeps the last: an example that opens a
    list stays in the result whatever follows it, and so does an example
    that closes an object whatever stands before it. The example has a
    text that is not blank, under a name that is not [__proto__] and, in
    a list, not one an empty object inherits. *)
Theorem connector_example_first_in_list_last_in_object
    (k v : string) (items : list jsval) (rec : record jsval) :
  trim v ≠ EmptyString -> trim k ≠ "__proto__" ->
  (inherited (trim k) = false ->
   ∃ out, parseConnectorsExamples inherited
            (VArr (VObj [(k, VStr v)] :: items)) = Some out
          ∧ (trim k, trim v) ∈ out)
  ∧ (∃ out, parseConnectorsExamples inherited
              (VObj (rec ++ [(k, VStr v)])) = Some out
            ∧ (trim k, trim v) ∈ out).
Proof.
  intros Hv Hk.
  assert ((0 <? String.length (trim v))%nat = true) as Hlen.
  { destruct (trim v); [done|]. done. }
  split.
  - intros Hi.
    unfold parseConnectorsExamples. cbn [ListItem.falsy foldl].
    set (first := collect_unset inherited [(k, VStr v)] []).
    assert ((trim k, trim v) ∈ first) as Hfirst.
    { subst first. unfold collect_unset. cbn [foldl fst snd].
      rewrite Hlen, unset_nil, Hi. cbn [negb].
      apply elem_of_assign; [apply NoDup_nil_2|]. by left. }
    assert (tidy first) as Htidy by apply tidy_collect_unset, tidy_nil.
    pose proof (items_keep items first _ _ Htidy Hfirst) as Hin.
    eexists. split; [|exact Hin].
    unfold nonempty. rewrite bool_decide_eq_true_2; [done|].
    rewrite length_fmap. destruct (foldl _ first items); [|cbn; lia].
    by apply elem_of_nil in Hin.
  - unfold parseConnectorsExamples. cbn [ListItem.falsy].
    rewrite collect_snoc, Hlen.
    assert ((trim k, trim v) ∈ Obj.assign (trim k) (trim v) (collect rec []))
      as Hin.
    { apply elem_of_assign; [apply (tidy_collect rec []), tidy_nil|]. by left. }
    eexists. split; [|exact Hin].
    unfold nonempty. rewrite bool_decide_eq_true_2; [done|].
    rewrite length_fmap. destruct (Obj.assign _ _ _); [|cbn; lia].
    by apply elem_of_nil in Hin.
Qed.

End Examples.

Lemma parseConnectorsExamples_tidy_witness :
  [("python", "pip install")] ≠ []
  ∧ NoDup [("python", "pip install")].*1
  ∧ Forall (fun kv : string * string =>
              trim kv.1 = kv.1 ∧ kv.2 ≠ EmptyString ∧ trim kv.2 = kv.2)
           [("python", "pip install")].
Proof.
  apply (parseConnectorsExamples_tidy inherited_names
           (VArr [ VObj [(" python ", VStr " pip install ")];
                   VObj [("python", VStr "other"); ("go", VStr "  ")] ])).
  reflexivity.
Defined.

Lemma connector_example_first_in_list_last_in_object_witness :
  (inherited_names (trim " python ") = false ->
   ∃ out, parseConnectorsExamples inherited_names
            (VArr [ VObj [(" python ", VStr " pip install ")];
                    VObj [("python", VStr "other")] ]) = Some out
          ∧ (trim " python ", trim " pip install ") ∈ out)
  ∧ (∃ out, parseConnectorsExamples inherited_names
              (VObj ([("python", VStr "other")]
                     ++ [(" python ", VStr " pip install ")])) = Some out
            ∧ (trim " python ", trim " pip install ") ∈ out).
Proof.
  apply (connector_example_first_in_list_last_in_object inherited_names
           " python " " pip install "
           [VObj [("python", VStr "other")]] [("python", VStr "other")]).
  - vm_compute. discriminate.
  - vm_compute. discriminate.
Defined.

End SidecarFacts.

(** ** What is posted to the proxy *)

Module SendFacts.
Import Playground Terms MoreTerms StringFacts MoreStringFacts.
Import Component.

Lemma isBodySupported_not_GET_HEAD (method' : string) :
  isBodySupported method' = true -> is_GET_or_HEAD method' = false.
Proof.
  unfold isBodySupported, is_GET_or_HEAD. intros Hin%bool_decide_eq_true.
  apply bool_decide_eq_false. intros Hget.
  rewrite !elem_of_cons in Hin. rewrite !elem_of_cons in Hget.
  destruct Hin as [Hm|[Hm|[Hm|[Hm|Hm]]]]; [..|by apply elem_of_nil in Hm];
    rewrite Hm in Hget;
    (destruct Hget as [?|[?|Hn]]; [discriminate..|by apply elem_of_nil in Hn]).
Qed.

Section Send.
Context `{Platform} (props : Props).

(** X16. A file and a multipart form never reach the proxy: in these two
    body modes the posted envelope has no body, whatever the method,
    and, when no identity is chosen, no [content-type] header. *)
Theorem uploads_never_posted (signedData : PlaygroundForm (list Param))
    (env : ProxyEnvelope) :
  bodyMode signedData = Some ModeFile ∨ bodyMode signedData = Some ModeMultipart ->
  send props signedData = Ok env ->
  env_body env = None
  ∧ (identity signedData = Some NO_IDENTITY ->
     Forall (fun kv : string * string => toLowerCase kv.1 ≠ "content-type")
            (env_headers env)).
Proof.
  intros Hmode. unfold send.
  destruct (createUrl props signedData) as [finalUrl|]; [|done].
  cbn [mbind result_bind].
  destruct (Headers_entries _) as [hdrs|]; [|done].
  cbn [mbind result_bind].
  assert (Forall (fun kv : string * string => toLowerCase kv.1 ≠ "content-type")
            (filter (fun kv : string * string => toLowerCase kv.1 ≠ "content-type")
                    hdrs)) as Hfilter.
  { apply Forall_forall. by intros kv [? _]%list_elem_of_filter. }
  destruct Hmode as [-> | ->].
  - case_bool_decide as Hid.
    + destruct (catch_remap _) as [hs|]; [|done]. intros [= <-]. cbn.
      split; [|done].
      destruct (is_GET_or_HEAD _); [done|]. by destruct (file signedData).
    + cbn [catch_remap]. intros [= <-]. cbn. split; [|done].
      destruct (is_GET_or_HEAD _); [done|]. by destruct (file signedData).
  - case_bool_decide as Hid.
    + destruct (catch_remap _) as [hs|]; [|done]. intros [= <-]. cbn.
      split; [|done]. by destruct (is_GET_or_HEAD _).
    + cbn [catch_remap]. intros [= <-]. cbn. split; [|done].
      by destruct (is_GET_or_HEAD _).
Qed.

(** X17. Whenever the component shows the body panel, that is for POST,
    PUT, PATCH and DELETE in any case of letters, a body text that is
    not empty is posted to the proxy as it stands, the body mode being
    neither file nor multipart. *)
Theorem shown_text_body_is_posted (signedData : PlaygroundForm (list Param))
    (env : ProxyEnvelope) :
  isBodySupported (method props) = true ->
  bodyMode signedData ≠ Some ModeFile ->
  bodyMode signedData ≠ Some ModeMultipart ->
  body signedData ≠ EmptyString ->
  send props signedData = Ok env ->
  env_body env = Some (body signedData).
Proof.
  intros Hshown%isBodySupported_not_GET_HEAD Hfile Hmulti Hbody. unfold send.
  rewrite Hshown.
  destruct (createUrl props signedData) as [finalUrl|]; [|done].
  cbn [mbind result_bind].
  destruct (Headers_entries _) as [hdrs|]; [|done].
  cbn [mbind result_bind].
  rewrite (bool_decide_eq_false_2 (body signedData = EmptyString)) by done.
  destruct (bodyMode signedData) as [[]|]; try done;
    (destruct (catch_remap _) as [hs|]; [|done]); by intros [= <-].
Qed.

End Send.

Lemma uploads_never_posted_witness :
  ∃ env, @send Reference.browser Samples.plain_post Samples.file_form = Ok env
         ∧ env_body env = None
         ∧ env_headers env = [].
Proof.
  eexists. split; [reflexivity|].
  destruct (@uploads_never_posted Reference.browser Samples.plain_post
              Samples.file_form _ (or_introl eq_refl) eq_refl) as [Hbody _].
  split; [exact Hbody|reflexivity].
Defined.

Lemma shown_text_body_is_posted_witness :
  ∃ env, @send Reference.browser Samples.plain_post
           (Samples.text_form "{}") = Ok env
         ∧ env_body env = Some "{}".
Proof.
  eexists. split; [reflexivity|].
  apply (@shown_text_body_is_posted Reference.browser Samples.plain_post
           (Samples.text_form "{}")); [reflexivity|done|done|done|reflexivity].
Defined.

End SendFacts.

(** ** The route of the proxy, and the two sides together *)

Module RouteFacts.
Import Terms MoreTerms StringFacts MoreStringFacts.
Import Proxy.

Section Route.
Context `{Platform}.

(** X18. The route calls upstream at most once for a request, and only
    a URL that parses with the protocol [https:]; a request that was
    forwarded is answered with status 200 or 500. *)
Theorem post_fetches_https_at_most_once (origin : option string)
    (readJson : result ProxyBody) :
  (post origin readJson).2 = []
  ∨ ∃ call u,
      (post origin readJson).2 = [call]
      ∧ URL_parse (fetch_url call) = Some u ∧ protocol u = "https:"
      ∧ (res_status (post origin readJson).1 = 200%Z
         ∨ res_status (post origin readJson).1 = 500%Z).
Proof.
  unfold post. destruct readJson as [payload|err]; [|by left].
  destruct (negb (truthy (url payload)) || negb (truthy (method payload)));
    [by left|].
  destruct (URL_parse _) as [u|] eqn:Hu; [|by left].
  case_bool_decide as Hp; [by left|]. right.
  assert (protocol u = "https:") as Hs.
  { destruct (decide (protocol u = "https:")); [done|]. by destruct Hp. }
  destruct (fetch _) as [upstream|err]; cbn [fst snd];
    eexists _, u; (split; [reflexivity|]); cbn [fetch_url]; naive_solver.
Qed.

(** X19. Every response of the route, the refusals and the errors
    included, carries the CORS headers: [Vary: Origin] always, and
    [Access-Control-Allow-Origin] exactly when the request has an origin
    that is not empty, with that origin as its value. *)
Theorem cors_on_every_response (origin : option string)
    (readJson : result ProxyBody) :
  res_headers (post origin readJson).1 = setCors origin
  ∧ res_headers (options origin) = setCors origin
  ∧ ("Vary", "Origin") ∈ setCors origin
  ∧ ∀ o, ("Access-Control-Allow-Origin", o) ∈ setCors origin
         <-> origin = Some o ∧ o ≠ EmptyString.
Proof.
  split_and!.
  - unfold post. destruct readJson as [payload|err]; [|done].
    destruct (negb _ || negb _); [done|].
    destruct (URL_parse _) as [u|]; [|done].
    case_bool_decide; [done|]. by destruct (fetch _).
  - done.
  - unfold setCors. apply elem_of_app. right. set_solver.
  - intros o. unfold setCors, truthy. destruct origin as [s|]; cbn [default].
    + case_bool_decide as Hs; cbn [negb app]; set_unfold; naive_solver.
    + cbn [app]. set_unfold. naive_solver.
Qed.

End Route.

End RouteFacts.

Module EndToEndFacts.
Import Playground Terms MoreTerms StringFacts MoreStringFacts.
Import Completion.

Lemma catch_remap_new_Error {A} (msg : string) :
  catch_remap (A := A) (Throw (new_Error msg)) = Throw (new_Error msg).
Proof. done. Qed.

(** X20. Whatever goes wrong after the envelope is built, the error of
    the submission is never a [TypeError]. *)
Theorem complete_never_type_error `{Platform}
    (signedData : PlaygroundForm (list Param)) (env : ProxyEnvelope)
    (proxyRes : result ProxyRes) (e : Error) :
  complete signedData env proxyRes = Throw e -> type_error e = false.
Proof.
  unfold complete. destruct (proxyRes ≫= read signedData env) as [r|e'];
    cbn [catch_remap]; [done|].
  destruct (type_error e') eqn:He; intros [= <-]; done.
Qed.

Section Together.
Context {server : Proxy.Platform} `{Platform}.

(** X21. A URL that the proxy parses with a protocol other than
    [https:] is not fetched: the submission ends with the error
    "Only https URLs are allowed" that the proxy sends. *)
Theorem non_https_url_is_refused (origin : option string)
    (signedData : PlaygroundForm (list Param)) (env : ProxyEnvelope)
    (p : ProxyRes) (u : Proxy.URL) :
  env_method env ≠ EmptyString -> env_url env ≠ EmptyString ->
  Proxy.URL_parse (env_url env) = Some u -> Proxy.protocol u ≠ "https:" ->
  Wire.delivers (Proxy.post origin (Ok (Wire.request env))).1 p ->
  complete signedData env (Ok p) = Throw (new_Error "Only https URLs are allowed")
  ∧ (Proxy.post origin (Ok (Wire.request env))).2 = [].
Proof.
  intros Hm Hurl Hu Hp. unfold Proxy.post, Wire.request.
  cbn [Proxy.url Proxy.method Proxy.truthy default id].
  rewrite !bool_decide_eq_false_2 by done. cbn [negb orb].
  rewrite Hu. rewrite bool_decide_eq_true_2 by done. cbn [fst snd].
  intros (Hok & _ & Htext & _). split; [|done].
  unfold complete, read. cbn [mbind result_bind].
  rewrite Hok. cbn [Proxy.bad_request Proxy.res_status negb].
  rewrite (Htext _ eq_refl). cbn [mbind result_bind]. done.
Qed.

(** X22. What upstream answers is the result of the submission, whatever
    its status: the status, the headers and the text are those of
    upstream, the size is the length of the text in UTF-16 units, and
    the request shown has the headers [Host] and [User-Agent] ahead of
    the headers that were posted. *)
Theorem upstream_answer_is_the_result (origin : option string)
    (signedData : PlaygroundForm (list Param)) (env : ProxyEnvelope)
    (p : ProxyRes) (call : Proxy.FetchCall) (upstream : Proxy.Upstream)
    (host : string) :
  (Proxy.post origin (Ok (Wire.request env))).2 = [call] ->
  Proxy.fetch call = Ok upstream ->
  Wire.delivers (Proxy.post origin (Ok (Wire.request env))).1 p ->
  URL_host (env_url env) = Some host ->
  complete signedData env (Ok p)
  = Ok {| r_status := Proxy.up_status upstream;
          r_headers := Proxy.up_headers upstream;
          r_size := Z.of_nat (utf16_length (Proxy.up_text upstream));
          r_body := Proxy.up_text upstream;
          r_isBinary :=
            isBinaryContentType
              (default EmptyString
                 (Proxy.header_get "content-type" (Proxy.up_headers upstream)));
          r_fileName :=
            extractFileName (Proxy.up_headers upstream) (env_url env);
          r_request :=
            {| rq_method := env_method env;
               rq_url := env_url env;
               rq_headers :=
                 ("Host", host)
                 :: ("User-Agent", "Binance Developer Docs Playground")
                 :: env_headers env;
               rq_body := requestBodyDebug signedData |} |}.
Proof.
  unfold Proxy.post.
  destruct (negb _ || negb _); [done|].
  destruct (Proxy.URL_parse _) as [u|]; [|done].
  case_bool_decide; [done|].
  destruct (Proxy.fetch _) as [up|err] eqn:Hf; cbn [fst snd];
    intros [= <-] Hfetch; pose proof (eq_trans (eq_sym Hf) Hfetch) as Heq;
    [|discriminate].
  injection Heq as ->.
  intros (Hok & _ & _ & Hjson) Hhost.
  unfold complete, read. cbn [mbind result_bind].
  rewrite Hok, (Hjson _ eq_refl). cbn [Proxy.res_status negb].
  cbn [mbind result_bind Wire.payload pl_headers pl_contentType pl_body
       pl_size pl_status default Proxy.fw_status Proxy.fw_headers
       Proxy.fw_body Proxy.fw_size Proxy.fw_contentType].
  rewrite Hhost. done.
Qed.

(** X23. When the call of upstream fails, the submission ends with an
    error that carries the message of the failure, or the text
    "Proxy request failed (500)" when that message is empty. *)
Theorem upstream_failure_is_the_error (origin : option string)
    (signedData : PlaygroundForm (list Param)) (env : ProxyEnvelope)
    (p : ProxyRes) (call : Proxy.FetchCall) (err : Error) :
  (Proxy.post origin (Ok (Wire.request env))).2 = [call] ->
  Proxy.fetch call = Throw err ->
  Wire.delivers (Proxy.post origin (Ok (Wire.request env))).1 p ->
  complete signedData env (Ok p)
  = Throw (new_Error
             (if bool_decide (message err = EmptyString)
              then "Proxy request failed (500)" else message err)).
Proof.
  unfold Proxy.post.
  destruct (negb _ || negb _); [done|].
  destruct (Proxy.URL_parse _) as [u|]; [|done].
  case_bool_decide; [done|].
  destruct (Proxy.fetch _) as [up|err'] eqn:Hf; cbn [fst snd];
    intros [= <-] Hfetch; pose proof (eq_trans (eq_sym Hf) Hfetch) as Heq;
    [discriminate|].
  injection Heq as ->.
  intros (Hok & Hstatus & Htext & _).
  unfold complete, read. cbn [mbind result_bind].
  rewrite Hok, Hstatus, (Htext _ eq_refl). cbn [Proxy.res_status negb].
  cbn [mbind result_bind]. done.
Qed.

End Together.

Lemma complete_never_type_error_witness :
  type_error (new_Error "The request failed, possibly due to network issues or proxy issues.")
  = false.
Proof.
  apply (@complete_never_type_error Samples.reader
           (Samples.text_form EmptyString)
           (Samples.envelope "GET" "https://api.example.com/orders")
           (Throw {| type_error := true; message := "Failed to fetch" |})).
  reflexivity.
Defined.

Lemma non_https_url_is_refused_witness :
  @complete Samples.reader (Samples.text_form EmptyString)
    (Samples.envelope "GET" "http://api.example.com/orders")
    (Ok (Samples.refused 400 "Only https URLs are allowed"))
  = Throw (new_Error "Only https URLs are allowed")
  ∧ (@Proxy.post Reference.server (Some "https://docs.example.com")
       (Ok (Wire.request
              (Samples.envelope "GET" "http://api.example.com/orders")))).2 = [].
Proof.
  apply (@non_https_url_is_refused Reference.server Samples.reader
           (Some "https://docs.example.com") (Samples.text_form EmptyString)
           (Samples.envelope "GET" "http://api.example.com/orders")
           (Samples.refused 400 "Only https URLs are allowed")
           {| Proxy.protocol := "http:" |}).
  - done.
  - done.
  - reflexivity.
  - done.
  - vm_compute. split_and!; [reflexivity|reflexivity| |].
    + intros s [= <-]. reflexivity.
    + intros f [=].
Defined.

Lemma upstream_answer_is_the_result_witness :
  ∃ r,
    @complete Samples.reader (Samples.text_form EmptyString)
      (Samples.envelope "GET" "https://api.example.com/orders")
      (Ok (Samples.answered
             {| Proxy.fw_status := 200;
                Proxy.fw_headers := [("content-type", "application/json")];
                Proxy.fw_body := "{}"; Proxy.fw_size := 2;
                Proxy.fw_contentType := "application/json" |}))
    = Ok r
    ∧ r_status r = 200%Z ∧ r_size r = 2%Z.
Proof.
  eexists. split.
  - apply (@upstream_answer_is_the_result Reference.server Samples.reader
             (Some "https://docs.example.com") (Samples.text_form EmptyString)
             (Samples.envelope "GET" "https://api.example.com/orders")
             _ _
             {| Proxy.up_status := 200;
                Proxy.up_headers := [("content-type", "application/json")];
                Proxy.up_text := "{}" |}
             "api.example.com/orders" eq_refl eq_refl).
    + vm_compute. split_and!; [reflexivity|reflexivity| |].
      * intros s [=].
      * intros f [= <-]. reflexivity.
    + reflexivity.
  - split; reflexivity.
Defined.

Lemma upstream_failure_is_the_error_witness :
  @complete Samples.reader (Samples.text_form EmptyString)
    (Samples.envelope "GET" "https://api.example.com/orders")
    (Ok (Samples.refused 500 "fetch failed"))
  = Throw (new_Error "fetch failed").
Proof.
  apply (@upstream_failure_is_the_error Samples.unreachable Samples.reader
           (Some "https://docs.example.com") (Samples.text_form EmptyString)
           (Samples.envelope "GET" "https://api.example.com/orders")
           (Samples.refused 500 "fetch failed") _
           {| type_error := true; message := "fetch failed" |} eq_refl eq_refl).
  vm_compute. split_and!; [reflexivity|reflexivity| |].
  - intros s [= <-]. reflexivity.
  - intros f [=].
Defined.

End EndToEndFacts.
